(** * A shallow embedding of the tile-mosaic library ([src-tauri/src/lib.rs])

    Modelling conventions.
    - [f64] is Rocq's primitive IEEE-754 binary64 type [float]; the Rust
      operators [+ - * /], [<] and [==] are [PrimFloat]'s [add], [sub], [mul],
      [div], [ltb] and [eqb] (IEEE comparisons, so [NaN] is never [<] and
      never [==]).
    - [u32] and [usize] values are [nat] where no arithmetic can overflow, and
      [Z] with the wrap-around written out where it can (release profile:
      overflow wraps).
    - The external crates ([image], [kiddo], [walkdir], [base64]) are not code
      of this repository: their operations are parameters of the Sections
      below, constrained by nothing, so every theorem holds whatever they do. *)

From Stdlib Require Import ZArith Lia List Bool Floats.
From Stdlib Require Import String Ascii.
Import ListNotations.
Open Scope nat_scope.

(** ** Numeric conversions used by the source *)

(** [n as f64] for a [u8], [u32] or [usize] [n]; exact below 2^53 (every
    value the program converts is below 2^63, where [of_uint63] is the
    correctly rounded conversion). *)
Definition nat_as_f64 (n : nat) : float :=
  PrimFloat.of_uint63 (Uint63.of_Z (Z.of_nat n)).

(** [f64::MAX]. *)
Definition f64_MAX : float := 0x1.fffffffffffffp+1023%float.

(** ** [f64] values as [SpecFloat] describes them

    [Prim2SF] maps a primitive float to its IEEE-754 binary64 description:
    sign, 53-bit mantissa and exponent. The sign of a value, unless it is
    NaN: *)
Definition sign_or_nan (s : bool) (x : spec_float) : Prop :=
  match x with
  | S754_nan => True
  | S754_zero s' | S754_infinity s' | S754_finite s' _ _ => s' = s
  end.

(** The number of binary digits of a positive integer. *)
Definition digits (p : positive) : Z := Zpos (digits2_pos p).

(** The integer [p < 2^53] as a binary64 value: its mantissa shifted to 53
    digits, with the matching exponent. *)
Definition canon_m (p : positive) : positive := Z.to_pos (Zpos p * 2 ^ (53 - digits p))%Z.

Definition sf_of_pos (p : positive) : spec_float :=
  S754_finite false (canon_m p) (digits p - 53)%Z.

Definition sf_of_nat (n : nat) : spec_float :=
  match Z.of_nat n with
  | Zpos p => sf_of_pos p
  | _ => S754_zero false
  end.

(** ** Constants of [lib.rs] *)

Definition PENALTY_MULTIPLIER : float := 50%float.
Definition KD_TREE_K_MIN : nat := 10.
Definition KD_TREE_K_MAX : nat := 100.
Definition KD_TREE_K_DIVISOR : nat := 10.
Definition SUPPORTED_EXTENSIONS : list string := ["jpg"; "jpeg"; "png"]%string.

(** The adaptive candidate count of [TileLibrary::find_best_tile]:
    [(len / 10).max(10).min(100).min(len).max(1)]. *)
Definition kd_tree_k (tiles_len : nat) : nat :=
  Nat.max (Nat.min (Nat.min (Nat.max (tiles_len / KD_TREE_K_DIVISOR) KD_TREE_K_MIN)
                            KD_TREE_K_MAX) tiles_len) 1.

(** ** Paths

    [std::path::Path] equality compares the component sequences (Unix
    parsing): the empty path has no component, a leading [/] is the root
    component, empty components (repeated or trailing separators) and [.]
    components are dropped, except a [.] that begins a relative path. *)
Inductive Component :=
| RootDir
| CurDir
| ParentDir
| Normal (s : string).

Fixpoint split_slash_aux (s : string) (cur : string) : list string :=
  match s with
  | EmptyString => [cur]
  | String c rest =>
      if Ascii.eqb c "/"%char then cur :: split_slash_aux rest EmptyString
      else split_slash_aux rest (cur ++ String c EmptyString)
  end.

Definition split_slash (s : string) : list string := split_slash_aux s EmptyString.

Definition component_of (s : string) : Component :=
  if String.eqb s ".." then ParentDir else Normal s.

Definition body_components (parts : list string) : list Component :=
  map component_of
    (filter (fun p => negb (String.eqb p "" || String.eqb p ".")) parts).

Definition path_components (p : string) : list Component :=
  (* the empty path has no component *)
  if String.eqb p "" then []
  else
    match split_slash p with
    | [] => []
    | first :: rest =>
        if String.eqb first "" then
          (* absolute path: [p] begins with a separator *)
          RootDir :: body_components rest
        else if String.eqb first "." then
          CurDir :: body_components rest
        else body_components (first :: rest)
    end.

Definition component_eqb (a b : Component) : bool :=
  match a, b with
  | RootDir, RootDir | CurDir, CurDir | ParentDir, ParentDir => true
  | Normal x, Normal y => String.eqb x y
  | _, _ => false
  end.

Fixpoint components_eqb (a b : list Component) : bool :=
  match a, b with
  | [], [] => true
  | x :: a', y :: b' => component_eqb x y && components_eqb a' b'
  | _, _ => false
  end.

(** [impl PartialEq for Path]. *)
Definition path_eq (a b : string) : bool :=
  components_eqb (path_components a) (path_components b).

(** ** Images (crate [image])

    A pixel as [GenericImageView::pixels] yields it for a [DynamicImage]:
    [Rgba<u8>]. An image is its width, height and pixels in row-major order
    (the order of [pixels()]); it is well formed when it has [width * height]
    pixels. *)
Record Rgba := mkRgba { ch0 : nat; ch1 : nat; ch2 : nat; ch3 : nat }.

Record Image := mkImage {
  width : nat;
  height : nat;
  pixels : list Rgba
}.

Definition well_formed (img : Image) : Prop :=
  List.length (pixels img) = width img * height img.

(** [[f64; 3]]. *)
Definition Color : Type := (float * float * float)%type.

(** ** [GaussianMask] *)
Module GaussianMask.

Record t := mk {
  weights : list float;
  total_weight : float
}.

(** [f64::exp], the platform's libm exponential, is left abstract: the
    mask's definitions take it as a parameter. *)
Section WithExp.
Variable exp : float -> float.

(** The weight pushed at column [x] of row [y] (body of the inner loop). *)
Definition weight_at (size : nat) (sigma_divisor : float) (x y : nat) : float :=
  let center := (nat_as_f64 size / 2)%float in
  let use_gaussian := (0 <? sigma_divisor)%float in
  let sigma := if use_gaussian then (nat_as_f64 size / sigma_divisor)%float else 1%float in
  if use_gaussian then
    let dx := (nat_as_f64 x - center)%float in
    let dy := (nat_as_f64 y - center)%float in
    let dist_sq := (dx * dx + dy * dy)%float in
    exp ((- dist_sq) / (2 * sigma * sigma))%float
  else 1%float.

(** One iteration: [weights.push(weight); total_weight += weight]. *)
Definition push_weight (size : nat) (sigma_divisor : float) (y : nat)
    (acc : list float * float) (x : nat) : list float * float :=
  let w := weight_at size sigma_divisor x y in
  (fst acc ++ [w], (snd acc + w)%float).

(** [GaussianMask::new]: [for y in 0..size { for x in 0..size { ... } }].
    [Vec::with_capacity((size * size) as usize)] only reserves memory and is
    not modelled; its [u32] product overflows from [size = 2^16] on, which
    panics in a debug build. *)
Definition new (size : nat) (sigma_divisor : float) : t :=
  let acc :=
    fold_left
      (fun acc y => fold_left (push_weight size sigma_divisor y) (seq 0 size) acc)
      (seq 0 size) ([], 0%float) in
  mk (fst acc) (snd acc).

End WithExp.

End GaussianMask.

(** [avg_rgb_with_mask]: [weights[i]] panics out of bounds, modelled by
    [None]. *)
Definition avg_step (weights : list float) (acc : option Color) (ip : nat * Rgba)
    : option Color :=
  match acc with
  | None => None
  | Some (r, g, b) =>
      match nth_error weights (fst ip) with
      | None => None
      | Some weight =>
          let pixel := snd ip in
          Some ((r + nat_as_f64 (ch0 pixel) * weight)%float,
                (g + nat_as_f64 (ch1 pixel) * weight)%float,
                (b + nat_as_f64 (ch2 pixel) * weight)%float)
      end
  end.

(** [img.pixels().enumerate()]. *)
Definition enumerate {A} (l : list A) : list (nat * A) := combine (seq 0 (List.length l)) l.

Definition avg_rgb_with_mask (img : Image) (mask : GaussianMask.t) : option Color :=
  let weights := GaussianMask.weights mask in
  match fold_left (avg_step weights) (enumerate (pixels img)) (Some (0, 0, 0)%float) with
  | None => None
  | Some (r, g, b) =>
      let total := GaussianMask.total_weight mask in
      Some ((r / total)%float, (g / total)%float, (b / total)%float)
  end.

(** ** Errors ([errors.rs]) *)
Module AppError.
Inductive t :=
| Io (msg : string)
| Image (msg : string)
| Config (msg : string).

(** The [#[error(...)]] display strings. *)
Definition to_string (e : t) : string :=
  match e with
  | Io m => "IO Error: " ++ m
  | Image m => "Image Processing Error: " ++ m
  | Config m => "Configuration Error: " ++ m
  end.
End AppError.

(** [AppResult<T>]. *)
Inductive AppResult (A : Type) :=
| Ok (a : A)
| Err (e : AppError.t).
Arguments Ok {A} a.
Arguments Err {A} e.

(** How a call ends: it returns a value, returns an [Err], or panics. *)
Inductive Outcome (A : Type) :=
| Returned (a : A)
| Failed (e : AppError.t)
| Panicked.
Arguments Returned {A} a.
Arguments Failed {A} e.
Arguments Panicked {A}.

(** ** [Tile] *)
Module Tile.
Record t := mk {
  path : string;
  color : Color;
  image_cache : option Image;
  tile_size : nat
}.

(** [Tile::new]. *)
Definition new (path : string) (color : Color) (tile_size : nat) : t :=
  mk path color None tile_size.
End Tile.

(** [MosaicConfig]. *)
Record MosaicConfig := mkMosaicConfig { penalty_factor : float }.

(** ** [TileLibrary]

    [color_index] is the [ImmutableKdTree] built from the tiles' colours,
    represented by the points it was built from. *)
Module TileLibrary.
Record t := mk {
  tiles : list Tile.t;
  color_index : list Color;
  src_dir : string;
  tile_size : nat;
  sigma_divisor : float;
  mask : GaussianMask.t
}.

(** [matches_config]: [src_dir == dir && tile_size == size
    && sigma_divisor == sigma_divisor]. *)
Definition matches_config (self : t) (dir : string) (size : nat) (sigma_divisor' : float)
    : bool :=
  path_eq (src_dir self) dir && Nat.eqb (tile_size self) size
  && PrimFloat.eqb (sigma_divisor self) sigma_divisor'.

(** The candidate loop of [find_best_tile]: [best_idx] starts at [0] and
    [min_score] at [f64::MAX]; a candidate replaces them when its score is
    strictly smaller. [usage_counts[idx]] out of bounds panics ([None]). *)
Definition score_step (usage_counts : list nat) (penalty : float)
    (acc : option (nat * float)) (neighbor : nat * float) : option (nat * float) :=
  match acc with
  | None => None
  | Some (best_idx, min_score) =>
      let idx := fst neighbor in
      let color_dist := snd neighbor in
      match nth_error usage_counts idx with
      | None => None
      | Some u =>
          let penalty_score := (nat_as_f64 u * penalty * PENALTY_MULTIPLIER)%float in
          let total_score := (color_dist + penalty_score)%float in
          if (total_score <? min_score)%float then Some (idx, total_score)
          else Some (best_idx, min_score)
      end
  end.

Definition best_of_candidates (nearest : list (nat * float)) (usage_counts : list nat)
    (penalty : float) : option nat :=
  option_map fst (fold_left (score_step usage_counts penalty) nearest (Some (0, f64_MAX))).

Section WithIndex.

(** [ImmutableKdTree::nearest_n::<SquaredEuclidean>]: the [k] candidates
    (item, squared distance) the index yields for a query, in its order. *)
Variable nearest_n : list Color -> Color -> nat -> list (nat * float).

(** [TileLibrary::find_best_tile]; [NonZeroUsize::new(k).unwrap()] panics on
    [k = 0]. *)
Definition find_best_tile (self : t) (target_color : Color) (usage_counts : list nat)
    (penalty : float) : option nat :=
  let k := kd_tree_k (List.length (tiles self)) in
  if Nat.eqb k 0 then None
  else best_of_candidates (nearest_n (color_index self) target_color k) usage_counts penalty.

End WithIndex.
End TileLibrary.

(** ** File extensions ([Path::extension], [to_lowercase]) *)

(** The last component's text, [None] when the path ends in [..] or has no
    normal final component. *)
Definition file_name (p : string) : option string :=
  match rev (path_components p) with
  | Normal s :: _ => Some s
  | _ => None
  end.

(** Split at the last ['.']: the part before and the part after it. *)
Fixpoint rsplit_dot_aux (s : string) (before cur : string) (seen : bool)
    : option (string * string) :=
  match s with
  | EmptyString => if seen then Some (before, cur) else None
  | String c rest =>
      if Ascii.eqb c "."%char then
        rsplit_dot_aux rest (if seen then before ++ "." ++ cur else cur) EmptyString true
      else rsplit_dot_aux rest before (cur ++ String c EmptyString) seen
  end%string.

(** [Path::extension]: no extension for [..], for a name without a dot, or
    for a name whose only dot is its first character. *)
Definition extension (p : string) : option string :=
  match file_name p with
  | None => None
  | Some name =>
      if String.eqb name ".." then None
      else match rsplit_dot_aux name EmptyString EmptyString false with
           | Some (before, after) => if String.eqb before "" then None else Some after
           | None => None
           end
  end.

Definition ascii_to_lower (c : ascii) : ascii :=
  let n := nat_of_ascii c in
  if (65 <=? n) && (n <=? 90) then ascii_of_nat (n + 32) else c.

(** [str::to_lowercase] on ASCII letters (other characters unchanged). *)
Fixpoint to_lowercase (s : string) : string :=
  match s with
  | EmptyString => EmptyString
  | String c rest => String (ascii_to_lower c) (to_lowercase rest)
  end.

Definition supported_extension (p : string) : bool :=
  match extension p with
  | None => false
  | Some ext => existsb (String.eqb (to_lowercase ext)) SUPPORTED_EXTENSIONS
  end.

(** ** Image operations of the crate [image] used by [lib.rs]

    A [DynamicImage] is represented by its RGBA8 rendering (what [pixels()]
    and [to_rgba8()] both give), so [to_rgba8] is the identity. *)
Definition to_rgba8 (img : Image) : Image := img.

(** [view(x, y, w, h).to_image()]: [view] asserts the rectangle lies inside
    the image (panic otherwise, [None]). *)
Definition view_to_image (img : Image) (x y w h : nat) : option Image :=
  if (x + w <=? width img) && (y + h <=? height img) then
    Some (mkImage w h
            (flat_map (fun j => firstn w (skipn ((y + j) * width img + x) (pixels img)))
                      (seq 0 h)))
  else None.

(** [imageops::crop_imm(img, x, y, w, h).to_image()]: the rectangle clamped
    to the image. *)
Definition crop_imm (img : Image) (x y w h : nat) : Image :=
  let x' := Nat.min x (width img) in
  let y' := Nat.min y (height img) in
  let w' := Nat.min w (width img - x') in
  let h' := Nat.min h (height img - y') in
  mkImage w' h'
    (flat_map (fun j => firstn w' (skipn ((y' + j) * width img + x') (pixels img)))
              (seq 0 h')).

(** [ImageBuffer::new(w, h)]: transparent black. *)
Definition blank_canvas (w h : nat) : Image := mkImage w h (repeat (mkRgba 0 0 0 0) (w * h)).

(** ** Padding arithmetic of [generate_mosaic] on [u32] *)
Definition u32_wrap (z : Z) : Z := (z mod 2 ^ 32)%Z.

(** [((orig + tile_size - 1) / tile_size) * tile_size] on [u32]: each
    operation wraps modulo 2^32; the division panics on a zero divisor
    ([None]). *)
Definition pad_dim (orig tile_size : Z) : option Z :=
  if (tile_size =? 0)%Z then None
  else Some (u32_wrap (u32_wrap (u32_wrap (orig + tile_size) - 1) / tile_size * tile_size)).

(** Which image [generate_mosaic] slices: the original one when padding
    leaves both dimensions unchanged, else the one [resize_exact] returns. *)
Inductive TargetSource :=
| OriginalPixels
| ResizedTo (pad_w pad_h : nat).

Definition target_source (orig_w orig_h pad_w pad_h : nat) : TargetSource :=
  if Nat.eqb pad_w orig_w && Nat.eqb pad_h orig_h then OriginalPixels
  else ResizedTo pad_w pad_h.

(** [(0..pad_h).step_by(ts).flat_map(|y| (0..pad_w).step_by(ts).map(|x| (x, y)))]. *)
Definition step_by (n step : nat) : list nat :=
  map (fun i => i * step) (seq 0 ((n + step - 1) / step)).

Definition tile_coords (pad_w pad_h ts : nat) : list (nat * nat) :=
  flat_map (fun y => map (fun x => (x, y)) (step_by pad_w ts)) (step_by pad_h ts).

(** ** Construction, tile loading and generation *)
Section Library.

(** [walkdir::WalkDir::new(dir).into_iter()]: each entry is an [Err]
    ([None]) or a path with whether it is a regular file. *)
Variable walk_dir : string -> list (option (string * bool)).
(** [load_image_with_orientation]: open, decode and orient (crate [image]). *)
Variable load_image_with_orientation : string -> AppResult Image.
(** [DynamicImage::resize_to_fill(w, h, Lanczos3)]. *)
Variable resize_to_fill : Image -> nat -> nat -> Image.
(** [f64::exp]. *)
Variable exp : float -> float.
(** [DynamicImage::resize_exact(w, h, Lanczos3)]. *)
Variable resize_exact : Image -> nat -> nat -> Image.
(** [imageops::overlay(&mut canvas, &top, x, y)]. *)
Variable overlay : Image -> Image -> nat -> nat -> Image.
(** [PngEncoder::write_image] followed by [general_purpose::STANDARD.encode]:
    the base64 payload ([inl]) or the encoder's error message ([inr]). *)
Variable encode_png_base64 : Image -> string + string.
(** [ImmutableKdTree::nearest_n::<SquaredEuclidean>]. *)
Variable nearest_n : list Color -> Color -> nat -> list (nat * float).

(** [load_resized_image_with_orientation]. *)
Definition load_resized_image_with_orientation (path : string) (size : nat)
    : AppResult Image :=
  match load_image_with_orientation path with
  | Ok img => Ok (resize_to_fill img size size)
  | Err e => Err e
  end.

(** The entries [load_library] collects: [filter_map(|e| e.ok())],
    [filter(is_file)], [map(path)]. *)
Definition dir_entries (src : string) : list string :=
  flat_map (fun e => match e with
                     | Some (p, true) => [p]
                     | _ => []
                     end) (walk_dir src).

(** The [filter_map] closure of [load_library]: [None] drops the file,
    [Some None] is a panic of [avg_rgb_with_mask]. *)
Definition load_tile (size : nat) (mask : GaussianMask.t) (path : string)
    : option (option Tile.t) :=
  if negb (supported_extension path) then Some None
  else match load_resized_image_with_orientation path size with
       | Err _ => Some None
       | Ok tile_img =>
           match avg_rgb_with_mask tile_img mask with
           | None => None
           | Some color => Some (Some (Tile.new path color size))
           end
       end.

(** [into_par_iter().filter_map(..).collect()]: an indexed parallel iterator
    collects in the sequential order; a panic in any job is a panic. *)
Fixpoint collect_tiles (size : nat) (mask : GaussianMask.t) (paths : list string)
    : option (list Tile.t) :=
  match paths with
  | [] => Some []
  | p :: rest =>
      match load_tile size mask p, collect_tiles size mask rest with
      | Some None, Some ts => Some ts
      | Some (Some t), Some ts => Some (t :: ts)
      | _, _ => None
      end
  end.

(** [TileLibrary::load_library]: always [Ok] when it returns. *)
Definition load_library (src : string) (size : nat) (mask : GaussianMask.t)
    : Outcome (list Tile.t) :=
  match collect_tiles size mask (dir_entries src) with
  | None => Panicked
  | Some tiles => Returned tiles
  end.

(** [TileLibrary::new]. *)
Definition new (dir : string) (size : nat) (sigma_divisor : float)
    : Outcome TileLibrary.t :=
  let mask := GaussianMask.new exp size sigma_divisor in
  match load_library dir size mask with
  | Panicked => Panicked
  | Failed e => Failed e
  | Returned tiles =>
      match tiles with
      | [] => Failed (AppError.Config "No valid images found in directory")
      | _ =>
          let color_points := map Tile.color tiles in
          Returned (TileLibrary.mk tiles color_points dir size sigma_divisor mask)
      end
  end.

(** [Tile::get_image]: returns the cached image, or loads, caches and returns
    it. The tile after the call is returned with the result. *)
Definition get_image (tile : Tile.t) : AppResult Image * Tile.t :=
  match Tile.image_cache tile with
  | Some cached => (Ok cached, tile)
  | None =>
      match load_resized_image_with_orientation (Tile.path tile) (Tile.tile_size tile) with
      | Err e =>
          (Err (AppError.Image ("Failed to load tile " ++ Tile.path tile ++ ": "
                                ++ AppError.to_string e)), tile)
      | Ok resized =>
          (Ok resized, Tile.mk (Tile.path tile) (Tile.color tile) (Some resized)
                               (Tile.tile_size tile))
      end
  end%string.

(** [v[i] = x] on a [Vec]. *)
Fixpoint list_set {A} (l : list A) (i : nat) (x : A) : list A :=
  match l, i with
  | [], _ => []
  | _ :: l', O => x :: l'
  | y :: l', S i' => y :: list_set l' i' x
  end.

(** [self.tiles[i].get_image()] on the library: out of bounds panics. *)
Definition lib_get_image (self : TileLibrary.t) (i : nat)
    : Outcome Image * TileLibrary.t :=
  match nth_error (TileLibrary.tiles self) i with
  | None => (Panicked, self)
  | Some tile =>
      let '(r, tile') := get_image tile in
      let self' := TileLibrary.mk (list_set (TileLibrary.tiles self) i tile')
                     (TileLibrary.color_index self) (TileLibrary.src_dir self)
                     (TileLibrary.tile_size self) (TileLibrary.sigma_divisor self)
                     (TileLibrary.mask self) in
      match r with
      | Ok img => (Returned img, self')
      | Err e => (Failed e, self')
      end
  end.

(** The [coords.iter().map(..).collect()] of [generate_mosaic]: per cell,
    the masked average colour of the region, the best tile, and
    [usage_counts[best_idx] += 1]. [None] is a panic. *)
Fixpoint select_tiles (self : TileLibrary.t) (target : Image) (penalty : float)
    (usage_counts : list nat) (coords : list (nat * nat)) : option (list nat) :=
  match coords with
  | [] => Some []
  | (x, y) :: rest =>
      let ts := TileLibrary.tile_size self in
      match view_to_image target x y ts ts with
      | None => None
      | Some region =>
          match avg_rgb_with_mask (to_rgba8 region) (TileLibrary.mask self) with
          | None => None
          | Some target_color =>
              match TileLibrary.find_best_tile nearest_n self target_color usage_counts penalty with
              | None => None
              | Some best_idx =>
                  match nth_error usage_counts best_idx with
                  | None => None
                  | Some u =>
                      match select_tiles self target penalty
                              (list_set usage_counts best_idx (S u)) rest with
                      | None => None
                      | Some ms => Some (best_idx :: ms)
                      end
                  end
              end
          end
      end
  end.

(** The canvas loop: [self.tiles[best_idx].get_image()?] then [overlay]. The
    library is threaded through: a tile loaded before an error stays cached. *)
Fixpoint paint (self : TileLibrary.t) (canvas : Image) (jobs : list ((nat * nat) * nat))
    : Outcome Image * TileLibrary.t :=
  match jobs with
  | [] => (Returned canvas, self)
  | ((x, y), best_idx) :: rest =>
      match lib_get_image self best_idx with
      | (Returned tile_img, self') => paint self' (overlay canvas (to_rgba8 tile_img) x y) rest
      | (Failed e, self') => (Failed e, self')
      | (Panicked, self') => (Panicked, self')
      end
  end.

(** [TileLibrary::generate_mosaic] ([&mut self]): the outcome and the library
    after the call. *)
Definition generate_mosaic (self : TileLibrary.t) (target_path : string)
    (config : MosaicConfig) : Outcome string * TileLibrary.t :=
  match load_image_with_orientation target_path with
  | Err e => (Failed e, self)
  | Ok target_img =>
      let orig_w := width target_img in
      let orig_h := height target_img in
      let ts := TileLibrary.tile_size self in
      match pad_dim (Z.of_nat orig_w) (Z.of_nat ts), pad_dim (Z.of_nat orig_h) (Z.of_nat ts) with
      | Some pw, Some ph =>
          let pad_w := Z.to_nat pw in
          let pad_h := Z.to_nat ph in
          let target :=
            match target_source orig_w orig_h pad_w pad_h with
            | OriginalPixels => to_rgba8 target_img
            | ResizedTo w h => to_rgba8 (resize_exact target_img w h)
            end in
          let coords := tile_coords pad_w pad_h ts in
          match select_tiles self target (penalty_factor config)
                  (repeat 0 (List.length (TileLibrary.tiles self))) coords with
          | None => (Panicked, self)
          | Some matches =>
              match paint self (blank_canvas pad_w pad_h) (combine coords matches) with
              | (Returned canvas, self') =>
                  let final_canvas := crop_imm canvas 0 0 orig_w orig_h in
                  match encode_png_base64 final_canvas with
                  | inl payload => (Returned ("data:image/png;base64," ++ payload)%string, self')
                  | inr msg =>
                      (Failed (AppError.Image ("Failed to encode image: " ++ msg)%string), self')
                  end
              | (Failed e, self') => (Failed e, self')
              | (Panicked, self') => (Panicked, self')
              end
          end
      | _, _ => (Panicked, self)
      end
  end.

End Library.

(** ** Specification predicates *)

(** A tile before and after a call that may only fill its cache: path,
    colour and size unchanged; the cache unchanged, or empty before and
    populated after. *)
Definition tile_cache_step (a b : Tile.t) : Prop :=
  Tile.path b = Tile.path a /\ Tile.color b = Tile.color a
  /\ Tile.tile_size b = Tile.tile_size a
  /\ (Tile.image_cache b = Tile.image_cache a
      \/ (Tile.image_cache a = None /\ exists img, Tile.image_cache b = Some img)).

(** Every field of the library unchanged except tile caches, which may only
    go from empty to populated. *)
Definition library_frame (l l' : TileLibrary.t) : Prop :=
  Forall2 tile_cache_step (TileLibrary.tiles l) (TileLibrary.tiles l')
  /\ TileLibrary.color_index l' = TileLibrary.color_index l
  /\ TileLibrary.src_dir l' = TileLibrary.src_dir l
  /\ TileLibrary.tile_size l' = TileLibrary.tile_size l
  /\ TileLibrary.sigma_divisor l' = TileLibrary.sigma_divisor l
  /\ TileLibrary.mask l' = TileLibrary.mask l.

(** A file [load_library] keeps: supported extension and a successful load. *)
Definition tile_survives (load_image_with_orientation : string -> AppResult Image)
    (resize_to_fill : Image -> nat -> nat -> Image) (size : nat) (p : string) : bool :=
  supported_extension p
  && match load_resized_image_with_orientation load_image_with_orientation resize_to_fill p size with
     | Ok _ => true
     | Err _ => false
     end.

(** The mask's weights written as rows: row [y] is [weight_at x y] for
    [x = 0 .. size - 1]. *)
Definition mask_rows (exp : float -> float) (size : nat) (sigma_divisor : float) : list float :=
  flat_map (fun y => map (fun x => GaussianMask.weight_at exp size sigma_divisor x y) (seq 0 size))
           (seq 0 size).

(** One channel of [avg_rgb_with_mask] before the division: pixel [i] weighted
    by the mask weight of column [i mod size], row [i / size]. *)
Definition channel_sum (exp : float -> float) (ch : Rgba -> nat) (size : nat)
    (sigma_divisor : float) (px : list Rgba) : float :=
  fold_left (fun acc ip =>
               (acc + nat_as_f64 (ch (snd ip))
                      * GaussianMask.weight_at exp size sigma_divisor
                          (fst ip mod size) (fst ip / size))%float)
            (enumerate px) 0%float.

(** The score [find_best_tile] gives a candidate [(idx, color_dist)]:
    [color_dist + usage_counts[idx] as f64 * penalty * PENALTY_MULTIPLIER],
    evaluated left to right in [f64]. *)
Definition candidate_score (usage_counts : list nat) (penalty : float) (c : nat * float)
    : float :=
  (snd c + nat_as_f64 (nth (fst c) usage_counts 0%nat) * penalty * PENALTY_MULTIPLIER)%float.

(** [a], at position [i] of [l], is the first minimum of [l] for [key]: no
    element has a strictly smaller key, every earlier one a strictly larger. *)
Definition first_min {A} (key : A -> float) (l : list A) (i : nat) (a : A) : Prop :=
  nth_error l i = Some a
  /\ (forall a', In a' l -> (key a' <? key a)%float = false)
  /\ (forall j a', j < i -> nth_error l j = Some a' -> (key a <? key a')%float = true).

(** [k] additions of [c] to [a], left to right, in [f64]. *)
Fixpoint fsum_const (c : float) (k : nat) (a : float) : float :=
  match k with
  | 0 => a
  | S k' => fsum_const c k' (a + c)%float
  end.

(** Whether the character [c] occurs in [s]. *)
Fixpoint has_char (c : ascii) (s : string) : bool :=
  match s with
  | EmptyString => false
  | String c' rest => Ascii.eqb c' c || has_char c rest
  end.

(** ** [load_image_with_orientation] *)
Module ImageLoad.

(** [image::metadata::Orientation]. *)
Inductive Orientation :=
| NoTransforms | Rotate90 | Rotate180 | Rotate270
| FlipHorizontal | FlipVertical | Rotate90FlipH | Rotate270FlipH.

Section Loader.
(** [ImageReader] and the format's [ImageDecoder]. *)
Variables Reader Decoder : Type.
(** [ImageReader::open]: the reader or the displayed I/O error. *)
Variable open : string -> Reader + string.
(** [ImageReader::into_decoder]: the decoder or the displayed error. *)
Variable into_decoder : Reader -> Decoder + string.
(** [ImageDecoder::orientation]: [None] for an error. *)
Variable orientation : Decoder -> option Orientation.
(** [DynamicImage::from_decoder]: the image or the displayed error. *)
Variable from_decoder : Decoder -> Image + string.
(** [DynamicImage::apply_orientation]. *)
Variable apply_orientation : Orientation -> Image -> Image.

Definition load_image_with_orientation (path : string) : AppResult Image :=
  match open path with
  | inr e => Err (AppError.Image ("Failed to open image: " ++ e))
  | inl reader =>
      match into_decoder reader with
      | inr e => Err (AppError.Image ("Failed to decode image: " ++ e))
      | inl decoder =>
          let orientation := match orientation decoder with
                             | Some o => o
                             | None => NoTransforms
                             end in
          match from_decoder decoder with
          | inr e => Err (AppError.Image ("Failed to load image: " ++ e))
          | inl img => Ok (apply_orientation orientation img)
          end
      end
  end%string.

End Loader.
End ImageLoad.

(** ** A stand-in for [f64::exp]

    The mask is built over an arbitrary [exp]; concrete instances below use
    this one, which keeps NaN and maps every other input to [1]. *)

Definition exp_stub (x : float) : float := if PrimFloat.is_nan x then x else 1%float.

(** * Theorems *)

(** ** [f64] arithmetic on small integers and signs *)

Lemma binary_round_aux_sign (sx : bool) (m e : Z) (l : location) :
  sign_or_nan sx (binary_round_aux prec emax sx m e l).
Proof.
  unfold binary_round_aux.
  destruct (shr_fexp _ _ _ _ _) as [r1 e1].
  destruct (shr_fexp _ _ _ _ _) as [r2 e2].
  destruct (shr_m r2); simpl; try destruct (Z.leb _ _); simpl; auto.
Qed.

Lemma binary_normalize_pos_sign (m : positive) (e : Z) :
  sign_or_nan false (binary_normalize prec emax (Zpos m) e false).
Proof.
  simpl. unfold binary_round. destruct (shl_align _ _ _) as [mz ez].
  apply binary_round_aux_sign.
Qed.

Lemma SFmul_sign (a b : bool) (x y : spec_float) :
  sign_or_nan a x -> sign_or_nan b y -> sign_or_nan (xorb a b) (SFmul prec emax x y).
Proof.
  destruct x, y; simpl; intros; subst; auto. apply binary_round_aux_sign.
Qed.

Lemma SFadd_nonneg (x y : spec_float) :
  sign_or_nan false x -> sign_or_nan false y -> sign_or_nan false (SFadd prec emax x y).
Proof.
  destruct x as [sx | sx | | sx mx ex], y as [sy | sy | | sy my ey]; intros Hx Hy;
    simpl in Hx, Hy; subst; try exact I; try reflexivity.
  unfold SFadd, cond_Zopp. apply binary_normalize_pos_sign.
Qed.

Lemma SFdiv_sign (a b : bool) (x y : spec_float) :
  sign_or_nan a x -> sign_or_nan b y -> sign_or_nan (xorb a b) (SFdiv prec emax x y).
Proof.
  destruct x, y; simpl; intros; subst; auto.
  destruct (SFdiv_core_binary _ _ _ _ _ _) as [[mz ez] lz]. apply binary_round_aux_sign.
Qed.

Lemma SFopp_sign (a : bool) (x : spec_float) :
  sign_or_nan a x -> sign_or_nan (negb a) (SFopp x).
Proof. destruct x; simpl; intros; subst; auto. Qed.

Lemma any_sign (x : spec_float) : exists s, sign_or_nan s x.
Proof. destruct x; simpl; first [exists false; exact I | eexists; reflexivity]. Qed.

(** A NaN compares [false] with everything. *)
Lemma is_nan_Prim2SF (x : float) : PrimFloat.is_nan x = true -> Prim2SF x = S754_nan.
Proof.
  unfold PrimFloat.is_nan. rewrite FloatAxioms.eqb_spec.
  destruct (Prim2SF x) as [s | s | | s m e]; simpl; try (destruct s; discriminate); [reflexivity |].
  destruct s; unfold SFeqb, SFcompare; rewrite Z.compare_refl, Pos.compare_cont_refl;
    simpl; discriminate.
Qed.

Lemma nan_leb (x y : float) : PrimFloat.is_nan x = true -> (x <=? y)%float = false.
Proof.
  intros H. rewrite FloatAxioms.leb_spec, (is_nan_Prim2SF x H). reflexivity.
Qed.

(** A float whose sign bit is set is [<= 0], unless it is NaN. *)
Lemma nonpos_or_nan (x : float) :
  sign_or_nan true (Prim2SF x) -> PrimFloat.is_nan x = true \/ (x <=? 0)%float = true.
Proof.
  intros H. unfold PrimFloat.is_nan. rewrite FloatAxioms.eqb_spec, FloatAxioms.leb_spec.
  replace (Prim2SF 0%float) with (S754_zero false) by reflexivity.
  destruct (Prim2SF x); simpl in *; subst; auto.
Qed.

Lemma digits_log2 (p : positive) : digits p = (Z.log2 (Zpos p) + 1)%Z.
Proof.
  unfold digits. assert (E : digits2_pos p = Pos.size p) by (induction p; simpl; congruence).
  rewrite E. destruct p; simpl; try rewrite Pos2Z.inj_succ; reflexivity.
Qed.

Lemma digits_pos (p : positive) : (1 <= digits p)%Z.
Proof. rewrite digits_log2. pose proof (Z.log2_nonneg (Zpos p)). lia. Qed.

Lemma digits_shift (p q : positive) (j : Z) :
  (0 <= j)%Z -> Zpos q = (Zpos p * 2 ^ j)%Z -> digits q = (digits p + j)%Z.
Proof.
  intros Hj E. rewrite !digits_log2, E, Z.log2_mul_pow2 by lia. lia.
Qed.

Lemma Zdigits2_shift (p : positive) (j : Z) :
  (0 <= j)%Z -> Zdigits2 (Zpos p * 2 ^ j) = (digits p + j)%Z.
Proof.
  intros Hj. assert (H : (0 < Zpos p * 2 ^ j)%Z) by (pose proof (Z.pow_pos_nonneg 2 j); lia).
  destruct (Zpos p * 2 ^ j)%Z as [| q | q] eqn:E; try lia.
  simpl. apply (digits_shift p q j Hj (eq_sym E)).
Qed.

Lemma digits_bound (p : positive) : (digits p <= 53)%Z <-> (Zpos p < 2 ^ 53)%Z.
Proof. rewrite digits_log2, Z.log2_lt_pow2 by lia. lia. Qed.

Lemma canon_m_spec (p : positive) :
  (digits p <= 53)%Z -> Zpos (canon_m p) = (Zpos p * 2 ^ (53 - digits p))%Z.
Proof.
  intros H. unfold canon_m. rewrite Z2Pos.id; [reflexivity |].
  pose proof (Z.pow_pos_nonneg 2 (53 - digits p)). lia.
Qed.

Lemma fexp_eq (d : Z) : (-1000 <= d)%Z -> fexp prec emax d = (d - 53)%Z.
Proof. intros H. unfold fexp, emin, prec, emax. simpl. lia. Qed.

Lemma iter_pos_nat {A} (f : A -> A) (p : positive) (x : A) :
  iter_pos f p x = Nat.iter (Pos.to_nat p) f x.
Proof.
  revert x; induction p as [p IH | p IH |]; intros x; cbn [iter_pos].
  - rewrite Pos2Nat.inj_xI, Nat.iter_succ_r, IH, IH, <- Nat.iter_add. f_equal. lia.
  - rewrite Pos2Nat.inj_xO, IH, IH, <- Nat.iter_add. f_equal. lia.
  - reflexivity.
Qed.

Lemma iter_xO (q d : positive) : Zpos (Pos.iter xO q d) = (Zpos q * 2 ^ Zpos d)%Z.
Proof.
  induction d as [| d IH] using Pos.peano_ind; [simpl; lia |].
  rewrite Pos.iter_succ, Pos2Z.inj_succ, Z.pow_succ_r by lia.
  change (Zpos (xO (Pos.iter xO q d))) with (2 * Zpos (Pos.iter xO q d))%Z.
  rewrite IH. ring.
Qed.

Lemma shr_1_iter (n : nat) (z : Z) :
  (0 < z)%Z ->
  Nat.iter n shr_1 (Build_shr_record (z * 2 ^ Z.of_nat n) false false)
  = Build_shr_record z false false.
Proof.
  revert z; induction n as [| n IH]; intros z Hz.
  - simpl. now rewrite Z.mul_1_r.
  - rewrite Nat.iter_succ_r.
    replace (z * 2 ^ Z.of_nat (S n))%Z with (2 * (z * 2 ^ Z.of_nat n))%Z
      by (rewrite Nat2Z.inj_succ, Z.pow_succ_r by lia; ring).
    assert (Hp : (0 < z * 2 ^ Z.of_nat n)%Z) by (pose proof (Z.pow_pos_nonneg 2 (Z.of_nat n)); lia).
    destruct (z * 2 ^ Z.of_nat n)%Z as [| q | q] eqn:E; try lia.
    simpl. rewrite <- E. apply IH. exact Hz.
Qed.

Lemma shr_exact (z e t : Z) :
  (0 < z)%Z -> (0 <= t)%Z ->
  shr (Build_shr_record (z * 2 ^ t) false false) e t = (Build_shr_record z false false, (e + t)%Z).
Proof.
  intros Hz Ht. destruct t as [| t | t]; try lia.
  - simpl. now rewrite Z.mul_1_r, Z.add_0_r.
  - unfold shr. rewrite iter_pos_nat.
    rewrite <- (positive_nat_Z t) at 1. rewrite shr_1_iter by exact Hz. reflexivity.
Qed.

Lemma shr_fexp_exact (p : positive) (m e : Z) :
  (e <= 0)%Z -> (digits p <= 53 <= digits p - e)%Z -> m = (Zpos p * 2 ^ (- e))%Z ->
  shr_fexp prec emax m e loc_Exact
  = (Build_shr_record (Zpos p * 2 ^ (53 - digits p)) false false, (digits p - 53)%Z).
Proof.
  intros He Hd ->. pose proof (digits_pos p). unfold shr_fexp.
  assert (Ht : (fexp prec emax (Zdigits2 (Zpos p * 2 ^ (- e)) + e) - e = digits p - 53 - e)%Z).
  { rewrite Zdigits2_shift, fexp_eq by lia. lia. }
  rewrite Ht.
  replace (Zpos p * 2 ^ (- e))%Z with (Zpos p * 2 ^ (53 - digits p) * 2 ^ (digits p - 53 - e))%Z
    by (rewrite <- Z.mul_assoc, <- Z.pow_add_r by lia; f_equal; f_equal; lia).
  cbn [shr_record_of_loc].
  rewrite shr_exact by (first [lia | apply Z.mul_pos_pos; [lia | apply Z.pow_pos_nonneg; lia]]).
  f_equal. lia.
Qed.

Lemma round_aux_exact (p : positive) (m e : Z) :
  (e <= 0)%Z -> (digits p <= 53 <= digits p - e)%Z -> m = (Zpos p * 2 ^ (- e))%Z ->
  binary_round_aux prec emax false m e loc_Exact = sf_of_pos p.
Proof.
  intros He Hd ->. pose proof (digits_pos p). unfold binary_round_aux.
  rewrite (shr_fexp_exact p _ e) by (first [lia | reflexivity]).
  cbn [shr_m loc_of_shr_record round_nearest_even].
  rewrite (shr_fexp_exact p _ (digits p - 53)) by (first [lia | f_equal; f_equal; lia]).
  cbn [shr_m]. rewrite <- canon_m_spec by lia.
  replace (Z.leb (digits p - 53) (emax - prec)) with true
    by (symmetry; apply Z.leb_le; unfold emax, prec; lia).
  reflexivity.
Qed.

Lemma round_exact (p q : positive) (e : Z) :
  (e <= 0)%Z -> (digits p <= 53)%Z -> Zpos q = (Zpos p * 2 ^ (- e))%Z ->
  binary_round prec emax false q e = sf_of_pos p.
Proof.
  intros He Hd Eq. pose proof (digits_pos p). unfold binary_round.
  assert (Dq : digits q = (digits p - e)%Z) by (apply (digits_shift p q (- e)); lia).
  change (Zpos (digits2_pos q)) with (digits q). rewrite Dq, fexp_eq by lia.
  replace (digits p - e + e - 53)%Z with (digits p - 53)%Z by lia.
  unfold shl_align.
  destruct (digits p - 53 - e)%Z as [| d | d] eqn:Ed.
  - apply round_aux_exact; [lia | lia | exact Eq].
  - apply round_aux_exact; [lia | lia | exact Eq].
  - apply round_aux_exact; [lia | lia |].
    rewrite iter_xO, Eq, <- Z.mul_assoc, <- Z.pow_add_r by lia. f_equal. f_equal. lia.
Qed.


Lemma nat_as_f64_sf (n : nat) :
  (Z.of_nat n < 2 ^ 53)%Z -> Prim2SF (nat_as_f64 n) = sf_of_nat n.
Proof.
  intros Hn. unfold nat_as_f64, sf_of_nat. rewrite FloatAxioms.of_uint63_spec, Uint63.of_Z_spec.
  rewrite Z.mod_small by (unfold Uint63Axioms.wB, Uint63.size; simpl; lia).
  destruct (Z.of_nat n) as [| p | p] eqn:E; [reflexivity | | lia].
  simpl. apply round_exact; [lia | apply digits_bound; lia | simpl; lia].
Qed.

Lemma shl_align_canon (a : positive) (e : Z) :
  (digits a <= 53)%Z -> (e <= digits a - 53)%Z ->
  Zpos (fst (shl_align (canon_m a) (digits a - 53) e)) = (Zpos a * 2 ^ (- e))%Z.
Proof.
  intros Ha He. pose proof (digits_pos a). unfold shl_align.
  destruct (e - (digits a - 53))%Z as [| d | d] eqn:Ed; simpl fst.
  - rewrite canon_m_spec by exact Ha. f_equal. f_equal. lia.
  - lia.
  - rewrite iter_xO, canon_m_spec, <- Z.mul_assoc, <- Z.pow_add_r by lia.
    f_equal. f_equal. lia.
Qed.

Lemma sf_add_exact (a b : positive) :
  (Zpos a + Zpos b < 2 ^ 53)%Z ->
  SFadd prec emax (sf_of_pos a) (sf_of_pos b) = sf_of_pos (a + b).
Proof.
  intros Hab.
  assert (Ha : (digits a <= 53)%Z) by (apply digits_bound; lia).
  assert (Hb : (digits b <= 53)%Z) by (apply digits_bound; lia).
  assert (Hs : (digits (a + b) <= 53)%Z) by (apply digits_bound; rewrite Pos2Z.inj_add; lia).
  pose proof (digits_pos a). pose proof (digits_pos b).
  set (ez := Z.min (digits a - 53) (digits b - 53)).
  change (SFadd prec emax (sf_of_pos a) (sf_of_pos b)) with
    (binary_normalize prec emax
       (Zpos (fst (shl_align (canon_m a) (digits a - 53) ez))
        + Zpos (fst (shl_align (canon_m b) (digits b - 53) ez)))%Z ez false).
  pose proof (shl_align_canon a ez Ha ltac:(unfold ez; lia)) as Ea.
  pose proof (shl_align_canon b ez Hb ltac:(unfold ez; lia)) as Eb.
  set (qa := fst (shl_align (canon_m a) (digits a - 53) ez)) in *.
  set (qb := fst (shl_align (canon_m b) (digits b - 53) ez)) in *.
  change (Zpos qa + Zpos qb)%Z with (Zpos (qa + qb)).
  change (binary_normalize prec emax (Zpos (qa + qb)) ez false)
    with (binary_round prec emax false (qa + qb) ez).
  apply round_exact; [unfold ez; lia | exact Hs |].
  rewrite !Pos2Z.inj_add, Ea, Eb. ring.
Qed.

Lemma sf_mul_one (c : positive) :
  (digits c <= 53)%Z -> SFmul prec emax (sf_of_pos c) (sf_of_pos 1) = sf_of_pos c.
Proof.
  intros Hc. pose proof (digits_pos c).
  change (SFmul prec emax (sf_of_pos c) (sf_of_pos 1))
    with (binary_round_aux prec emax false (Zpos (canon_m c * canon_m 1))
            (digits c - 53 + (digits 1 - 53)) loc_Exact).
  change (digits 1) with 1%Z.
  apply round_aux_exact; [lia | lia |].
  rewrite Pos2Z.inj_mul, canon_m_spec by exact Hc.
  change (Zpos (canon_m 1)) with (2 ^ 52)%Z.
  rewrite <- Z.mul_assoc, <- Z.pow_add_r by lia. f_equal. f_equal. lia.
Qed.

Lemma digits_canon (p : positive) : (digits p <= 53)%Z -> digits (canon_m p) = 53%Z.
Proof.
  intros H. rewrite (digits_shift p (canon_m p) (53 - digits p)); [lia | lia |].
  now apply canon_m_spec.
Qed.

Lemma div_eucl_exact (q m : Z) : m <> 0%Z -> Z.div_eucl (q * m) m = (q, 0%Z).
Proof.
  intros Hm. pose proof (Z.div_mul q m Hm) as E1. pose proof (Z.mod_mul q m Hm) as E2.
  unfold Z.div, Z.modulo in E1, E2. destruct (Z.div_eucl (q * m) m). simpl in *. congruence.
Qed.

Lemma sf_div_exact (c k ck : positive) :
  Zpos ck = (Zpos c * Zpos k)%Z -> (Zpos ck < 2 ^ 53)%Z ->
  SFdiv prec emax (sf_of_pos ck) (sf_of_pos k) = sf_of_pos c.
Proof.
  intros E Hck.
  assert (Hd : (digits ck <= 53)%Z) by (apply digits_bound; lia).
  assert (Hc : (digits c <= 53)%Z) by (apply digits_bound; nia).
  assert (Hk : (digits k <= 53)%Z) by (apply digits_bound; nia).
  assert (Hkk : (digits k <= digits ck)%Z).
  { rewrite !digits_log2. apply Z.add_le_mono_r, Z.log2_le_mono. nia. }
  assert (Hup : (digits ck <= digits c + digits k)%Z).
  { rewrite !digits_log2, E. pose proof (Z.log2_mul_above (Zpos c) (Zpos k)). lia. }
  pose proof (digits_pos c). pose proof (digits_pos k).
  change (SFdiv prec emax (sf_of_pos ck) (sf_of_pos k))
    with (let '(mz, ez, lz) := SFdiv_core_binary prec emax (Zpos (canon_m ck)) (digits ck - 53)
                                  (Zpos (canon_m k)) (digits k - 53) in
          binary_round_aux prec emax false mz ez lz).
  unfold SFdiv_core_binary.
  change (Zdigits2 (Zpos (canon_m ck))) with (digits (canon_m ck)).
  change (Zdigits2 (Zpos (canon_m k))) with (digits (canon_m k)).
  rewrite !digits_canon by assumption.
  rewrite fexp_eq by lia.
  replace (Z.min (53 + (digits ck - 53) - (53 + (digits k - 53)) - 53)
                 (digits ck - 53 - (digits k - 53)))
    with (digits ck - digits k - 53)%Z by lia.
  replace (digits ck - 53 - (digits k - 53) - (digits ck - digits k - 53))%Z with 53%Z by lia.
  cbv beta iota zeta.
  rewrite Z.shiftl_mul_pow2 by lia.
  rewrite canon_m_spec by exact Hd. rewrite canon_m_spec by exact Hk.
  replace (Zpos ck * 2 ^ (53 - digits ck) * 2 ^ 53)%Z
    with ((Zpos c * 2 ^ (53 - digits ck + digits k)) * (Zpos k * 2 ^ (53 - digits k)))%Z.
  2: { transitivity (Zpos c * Zpos k * 2 ^ (106 - digits ck))%Z.
       - replace (106 - digits ck)%Z with ((53 - digits ck + digits k) + (53 - digits k))%Z
           by lia.
         rewrite (Z.pow_add_r 2 (53 - digits ck + digits k) (53 - digits k)) by lia. ring.
       - rewrite E, <- (Z.mul_assoc (Zpos c * Zpos k)), <- Z.pow_add_r by lia. f_equal. f_equal. lia. }
  rewrite div_eucl_exact.
  2: { assert (0 < Zpos k * 2 ^ (53 - digits k))%Z by (apply Z.mul_pos_pos; [lia | apply Z.pow_pos_nonneg; lia]). lia. }
  replace (new_location (Zpos k * 2 ^ (53 - digits k)) 0) with loc_Exact
    by (unfold new_location, new_location_even, new_location_odd;
        destruct (Z.even _); reflexivity).
  apply round_aux_exact; [lia | lia |]. f_equal. f_equal. lia.
Qed.

Lemma f64_add_nat (a b : nat) :
  (Z.of_nat (a + b) < 2 ^ 53)%Z -> (nat_as_f64 a + nat_as_f64 b)%float = nat_as_f64 (a + b).
Proof.
  intros H. apply FloatAxioms.Prim2SF_inj.
  rewrite FloatAxioms.add_spec, !nat_as_f64_sf by lia.
  unfold sf_of_nat. rewrite Nat2Z.inj_add.
  destruct (Z.of_nat a) as [| pa | pa] eqn:Ea; [| | lia];
    destruct (Z.of_nat b) as [| pb | pb] eqn:Eb; try lia; try reflexivity.
  apply sf_add_exact. rewrite Nat2Z.inj_add, Ea, Eb in H. exact H.
Qed.

Lemma f64_mul_one_nat (n : nat) :
  (Z.of_nat n < 2 ^ 53)%Z -> (nat_as_f64 n * 1)%float = nat_as_f64 n.
Proof.
  intros H. apply FloatAxioms.Prim2SF_inj.
  rewrite FloatAxioms.mul_spec, !nat_as_f64_sf by lia.
  replace (Prim2SF 1%float) with (sf_of_pos 1) by reflexivity.
  unfold sf_of_nat. destruct (Z.of_nat n) as [| p | p] eqn:E; [reflexivity | | lia].
  apply sf_mul_one, digits_bound. lia.
Qed.

Lemma f64_div_nat (c k : nat) :
  0 < k -> (Z.of_nat k < 2 ^ 53)%Z -> (Z.of_nat (c * k) < 2 ^ 53)%Z ->
  (nat_as_f64 (c * k) / nat_as_f64 k)%float = nat_as_f64 c.
Proof.
  intros Hk Hk' H. apply FloatAxioms.Prim2SF_inj.
  assert (Hc : (Z.of_nat c < 2 ^ 53)%Z) by (destruct k; [lia | nia]).
  rewrite FloatAxioms.div_spec, (nat_as_f64_sf (c * k) H), (nat_as_f64_sf k Hk'),
    (nat_as_f64_sf c Hc).
  unfold sf_of_nat. rewrite Nat2Z.inj_mul in H |- *.
  destruct (Z.of_nat k) as [| pk | pk] eqn:Ek; try lia.
  destruct (Z.of_nat c) as [| pc | pc] eqn:Ec; try lia; [reflexivity |].
  change (Zpos pc * Zpos pk)%Z with (Zpos (pc * pk)).
  apply sf_div_exact; [reflexivity | exact H].
Qed.

Lemma fsum_const_nat (c k a : nat) :
  (Z.of_nat (a + c * k) < 2 ^ 53)%Z ->
  fsum_const (nat_as_f64 c) k (nat_as_f64 a) = nat_as_f64 (a + c * k).
Proof.
  revert a; induction k as [| k IH]; intros a H; simpl.
  - now rewrite Nat.mul_0_r, Nat.add_0_r.
  - rewrite f64_add_nat by lia. rewrite IH by lia. f_equal. lia.
Qed.

(** ** Strings *)

Lemma string_app_assoc (a b c : string) : ((a ++ b) ++ c = a ++ (b ++ c))%string.
Proof. induction a as [| x a IH]; simpl; [reflexivity | now rewrite IH]. Qed.

Lemma string_app_nil_r (a : string) : (a ++ "" = a)%string.
Proof. induction a as [| x a IH]; simpl; [reflexivity | now rewrite IH]. Qed.

Lemma string_length_app (a b : string) : String.length (a ++ b) = String.length a + String.length b.
Proof. induction a as [| x a IH]; simpl; [reflexivity | now rewrite IH]. Qed.

Lemma has_char_cons (c x : ascii) (s : string) :
  has_char c (String x s) = false -> x <> c /\ has_char c s = false.
Proof.
  simpl. intros H. apply orb_false_iff in H as [H1 H2]. split; [| exact H2].
  intros ->. now rewrite Ascii.eqb_refl in H1.
Qed.

Lemma has_char_app (c : ascii) (a b : string) :
  has_char c (a ++ b) = has_char c a || has_char c b.
Proof. induction a as [| x a IH]; simpl; [reflexivity | now rewrite IH, orb_assoc]. Qed.

(** ** Paths *)

Lemma split_slash_aux_noslash (s cur : string) :
  has_char "/" s = false -> split_slash_aux s cur = [(cur ++ s)%string].
Proof.
  revert cur; induction s as [| x s IH]; intros cur H; simpl.
  - now rewrite string_app_nil_r.
  - apply has_char_cons in H as [Hx Hs].
    destruct (Ascii.eqb x "/") eqn:E; [apply Ascii.eqb_eq in E; contradiction |].
    rewrite IH by exact Hs. now rewrite string_app_assoc.
Qed.

Lemma split_slash_aux_app (s1 s2 cur : string) :
  has_char "/" s2 = false ->
  split_slash_aux (s1 ++ "/" ++ s2) cur = split_slash_aux s1 cur ++ [s2].
Proof.
  revert cur; induction s1 as [| x s1 IH]; intros cur H; simpl.
  - now rewrite split_slash_aux_noslash.
  - destruct (Ascii.eqb x "/"); simpl; now rewrite IH.
Qed.

Lemma split_slash_aux_cons (s cur : string) : exists f r, split_slash_aux s cur = f :: r.
Proof.
  revert cur; induction s as [| x s IH]; intros cur; simpl; [eauto |].
  destruct (Ascii.eqb x "/"); eauto.
Qed.

Lemma body_components_app (a b : list string) :
  body_components (a ++ b) = body_components a ++ body_components b.
Proof. unfold body_components. now rewrite filter_app, map_app. Qed.

(** C7: for a library of [n >= 1] tiles, the candidate count of
    [find_best_tile] is [clamp(n / 10, 10, 100)] clamped again to [[1, n]];
    hence [1 <= k <= n] and [k <= 100]. *)
Theorem kd_tree_k_clamped (n : nat) (Hn : 1 <= n) :
  let clamp v lo hi := Nat.min (Nat.max v lo) hi in
  kd_tree_k n = clamp (clamp (n / 10) 10 100) 1 n
  /\ 1 <= kd_tree_k n /\ kd_tree_k n <= n /\ kd_tree_k n <= 100.
Proof.
  cbv zeta. unfold kd_tree_k, KD_TREE_K_DIVISOR, KD_TREE_K_MIN, KD_TREE_K_MAX.
  repeat split; lia.
Qed.

Lemma kd_tree_k_clamped_witness :
  1 <= 250 /\ kd_tree_k 250 = 25 /\ 1 <= kd_tree_k 250.
Proof.
  split; [lia |]. split; [reflexivity |].
  exact (proj1 (proj2 (kd_tree_k_clamped 250 ltac:(lia)))).
Defined.

Lemma component_eqb_true (a b : Component) : component_eqb a b = true <-> a = b.
Proof.
  destruct a, b; simpl; split; intros H; try discriminate; try congruence.
  - apply String.eqb_eq in H. now subst.
  - inversion H; subst. apply String.eqb_refl.
Qed.

Lemma components_eqb_true (a b : list Component) : components_eqb a b = true <-> a = b.
Proof.
  revert b; induction a as [| x a IH]; intros [| y b]; simpl;
    split; intros H; try discriminate; try reflexivity.
  - apply andb_prop in H as [H1 H2].
    apply component_eqb_true in H1. apply IH in H2. now subst.
  - inversion H; subst. apply andb_true_intro; split.
    + now apply component_eqb_true.
    + now apply IH.
Qed.

(** A library whose directory is ["/tmp/tiles"] (as [build_test_library] in
    [lib.rs] builds it, with tile size 32 and sigma divisor 4) matches the
    query ["/tmp/tiles/"], a different string. *)
Lemma matches_config_trailing_separator :
  exists lib : TileLibrary.t,
    TileLibrary.src_dir lib = "/tmp/tiles"%string
    /\ TileLibrary.tile_size lib = 32 /\ TileLibrary.sigma_divisor lib = 4%float
    /\ TileLibrary.matches_config lib "/tmp/tiles/" 32 4 = true
    /\ String.eqb "/tmp/tiles" "/tmp/tiles/" = false.
Proof.
  exists (TileLibrary.mk [Tile.new "/tmp/tile.png" (0, 0, 0)%float 32] [(0, 0, 0)%float]
       "/tmp/tiles" 32 4 (GaussianMask.mk [] 0)).
  repeat split; vm_compute; reflexivity.
Qed.

(** A separator after a non-empty path adds no component. *)
Lemma path_components_trailing_sep (dir : string) :
  dir <> ""%string -> path_components (dir ++ "/") = path_components dir.
Proof.
  intros Hd. unfold path_components.
  replace (String.eqb (dir ++ "/") "") with false by (destruct dir; reflexivity).
  apply String.eqb_neq in Hd. rewrite Hd. unfold split_slash.
  change (dir ++ "/")%string with (dir ++ "/" ++ "")%string.
  rewrite (split_slash_aux_app dir "" "" eq_refl).
  destruct (split_slash_aux_cons dir "") as [f [r ->]]. simpl.
  assert (Hb : body_components [""%string] = []) by reflexivity.
  destruct (String.eqb f ""); [| destruct (String.eqb f ".")];
    [rewrite body_components_app, Hb, app_nil_r; reflexivity
    | rewrite body_components_app, Hb, app_nil_r; reflexivity
    | change (f :: r ++ [""%string]) with ((f :: r) ++ [""%string]);
      rewrite body_components_app, Hb, app_nil_r; reflexivity].
Qed.

(** C8 (as amended): [matches_config] is true exactly when the directory is
    equal as a path (same components), the tile size is equal and the sigma
    divisor is [==] (IEEE equality). So the stored directory matches itself
    and itself followed by a separator alike, with the stored tile size the
    answer is the sigma comparison alone, the empty path and [/] differ,
    [.] components and repeated separators inside a path are ignored while
    [..] is kept, and a library built with sigma divisor 4.0 does not match
    8.0. *)
Theorem matches_config_iff (lib : TileLibrary.t) (dir : string) (size : nat)
    (sigma_divisor : float) :
  (TileLibrary.matches_config lib dir size sigma_divisor = true <->
     path_components (TileLibrary.src_dir lib) = path_components dir
     /\ TileLibrary.tile_size lib = size
     /\ PrimFloat.eqb (TileLibrary.sigma_divisor lib) sigma_divisor = true)
  /\ (TileLibrary.src_dir lib <> ""%string ->
        TileLibrary.matches_config lib (TileLibrary.src_dir lib ++ "/") size sigma_divisor
        = TileLibrary.matches_config lib (TileLibrary.src_dir lib) size sigma_divisor)
  /\ TileLibrary.matches_config lib (TileLibrary.src_dir lib) (TileLibrary.tile_size lib)
       sigma_divisor = PrimFloat.eqb (TileLibrary.sigma_divisor lib) sigma_divisor
  /\ path_eq "" "/" = false
  /\ path_eq "/tmp/./tiles" "/tmp//tiles" = true
  /\ path_eq "/tmp/a/../tiles" "/tmp/tiles" = false
  /\ (forall tiles points src ts mask,
        TileLibrary.matches_config (TileLibrary.mk tiles points src ts 4%float mask)
          dir size 8%float = false).
Proof.
  unfold TileLibrary.matches_config, path_eq.
  split; [| split; [| split; [| split; [| split; [| split]]]]].
  - rewrite !andb_true_iff, components_eqb_true, Nat.eqb_eq. tauto.
  - intros Hd. now rewrite path_components_trailing_sep by exact Hd.
  - rewrite (proj2 (components_eqb_true _ _) eq_refl), Nat.eqb_refl. reflexivity.
  - reflexivity.
  - vm_compute. reflexivity.
  - vm_compute. reflexivity.
  - intros. simpl. rewrite !andb_false_r. reflexivity.
Qed.

(** [generate_mosaic] on a target of width [u32::MAX] with tile size 2:
    [4294967295 + 2] does not fit in a [u32] (a debug build panics there, a
    release build wraps to 1) and the padded width is [0]. *)
Lemma pad_dim_wraps :
  pad_dim 4294967295 2 = Some 0%Z /\ (4294967295 + 2 - 1 >= 2 ^ 32)%Z.
Proof. split; [vm_compute; reflexivity | lia]. Qed.

Lemma pad_dim_no_wrap (w ts : Z) :
  (0 < w)%Z -> (0 < ts)%Z -> (w + ts <= 2 ^ 32)%Z ->
  exists p, pad_dim w ts = Some p /\ (p mod ts = 0)%Z /\ (w <= p)%Z /\ (p < w + ts)%Z
            /\ p = ((w + ts - 1) / ts * ts)%Z.
Proof.
  intros Hw Hts Hb. unfold pad_dim, u32_wrap.
  destruct (Z.eqb_spec ts 0) as [E | _]; [lia |].
  assert (Hm : ((((w + ts) mod 2 ^ 32) - 1) mod 2 ^ 32 = w + ts - 1)%Z).
  { destruct (Z.eq_dec (w + ts) (2 ^ 32)) as [E | NE].
    - rewrite E, Z_mod_same_full. reflexivity.
    - rewrite (Z.mod_small (w + ts)) by lia. apply Z.mod_small. lia. }
  rewrite Hm.
  pose proof (Z.div_mod (w + ts - 1) ts ltac:(lia)) as Hd.
  pose proof (Z.mod_pos_bound (w + ts - 1) ts Hts) as Hr.
  set (q := ((w + ts - 1) / ts)%Z) in *.
  set (r := ((w + ts - 1) mod ts)%Z) in *.
  assert (Hq : (0 <= q * ts < 2 ^ 32)%Z) by nia.
  exists (q * ts)%Z. rewrite (Z.mod_small (q * ts)) by lia.
  split; [reflexivity |]. split; [apply Z.mod_mul; lia |]. nia.
Qed.

(** C4, where the [u32] padding arithmetic cannot overflow: for [w, h, tile_size > 0] with [w + tile_size] and
    [h + tile_size] at most [2^32] (so that no [u32] operation wraps), the
    padded dimensions are the least multiples of [tile_size] that are [>= w]
    and [>= h]; when both equal the originals, the original pixels are used
    and [resize_exact] is never called: the whole result of
    [generate_mosaic] does not depend on it. *)
Theorem generate_mosaic_padding (w h ts : nat)
    (Hw : 0 < w) (Hh : 0 < h) (Hts : 0 < ts)
    (Hbw : (Z.of_nat w + Z.of_nat ts <= 2 ^ 32)%Z)
    (Hbh : (Z.of_nat h + Z.of_nat ts <= 2 ^ 32)%Z) :
  exists pad_w pad_h,
    pad_dim (Z.of_nat w) (Z.of_nat ts) = Some (Z.of_nat pad_w)
    /\ pad_dim (Z.of_nat h) (Z.of_nat ts) = Some (Z.of_nat pad_h)
    /\ pad_w mod ts = 0 /\ w <= pad_w /\ pad_w < w + ts
    /\ pad_h mod ts = 0 /\ h <= pad_h /\ pad_h < h + ts
    /\ (pad_w = w /\ pad_h = h ->
        target_source w h pad_w pad_h = OriginalPixels
        /\ forall load resize_to_fill resize_exact1 resize_exact2 overlay encode nearest_n
                  self target_path config target_img,
             load target_path = Ok target_img -> width target_img = w ->
             height target_img = h -> TileLibrary.tile_size self = ts ->
             generate_mosaic load resize_to_fill resize_exact1 overlay encode nearest_n
               self target_path config
             = generate_mosaic load resize_to_fill resize_exact2 overlay encode nearest_n
                 self target_path config).
Proof.
  destruct (pad_dim_no_wrap (Z.of_nat w) (Z.of_nat ts) ltac:(lia) ltac:(lia) Hbw)
    as (pw & Epw & Mw & Lw & Uw & _).
  destruct (pad_dim_no_wrap (Z.of_nat h) (Z.of_nat ts) ltac:(lia) ltac:(lia) Hbh)
    as (ph & Eph & Mh & Lh & Uh & _).
  exists (Z.to_nat pw), (Z.to_nat ph).
  rewrite !Z2Nat.id by lia.
  split; [exact Epw |]. split; [exact Eph |].
  assert (Hmod : forall p, (0 <= p)%Z -> (p mod Z.of_nat ts = 0)%Z -> Z.to_nat p mod ts = 0).
  { intros p Hp Hpm. apply Nat2Z.inj. rewrite Nat2Z.inj_mod, Z2Nat.id by lia.
    simpl. exact Hpm. }
  split; [apply Hmod; lia |]. split; [lia |]. split; [lia |].
  split; [apply Hmod; lia |]. split; [lia |]. split; [lia |].
  intros [Ew Eh].
  assert (Hsrc : target_source w h (Z.to_nat pw) (Z.to_nat ph) = OriginalPixels).
  { unfold target_source. rewrite Ew, Eh, !Nat.eqb_refl. reflexivity. }
  split; [exact Hsrc |].
  intros load rtf re1 re2 ov enc nn self tp cfg img Hload Hiw Hih Hts'.
  unfold generate_mosaic. rewrite Hload, Hiw, Hih, Hts', Epw, Eph.
  cbv zeta. rewrite Hsrc. reflexivity.
Qed.

Lemma generate_mosaic_padding_witness :
  exists pad_w pad_h,
    pad_dim 64 32 = Some (Z.of_nat pad_w) /\ pad_dim 48 32 = Some (Z.of_nat pad_h)
    /\ pad_w = 64 /\ pad_h = 64.
Proof.
  destruct (generate_mosaic_padding 64 48 32 ltac:(lia) ltac:(lia) ltac:(lia)
              ltac:(simpl; lia) ltac:(simpl; lia)) as (pw & ph & E1 & E2 & _).
  exists pw, ph. split; [exact E1 |]. split; [exact E2 |].
  assert (A1 : pad_dim (Z.of_nat 64) (Z.of_nat 32) = Some 64%Z) by reflexivity.
  assert (A2 : pad_dim (Z.of_nat 48) (Z.of_nat 32) = Some 64%Z) by reflexivity.
  rewrite A1 in E1. rewrite A2 in E2.
  injection E1 as E1. injection E2 as E2. lia.
Defined.

(** ** The mask *)

Section Mask.
(** [f64::exp]. *)
Variable exp : float -> float.

Lemma push_weight_fold (size : nat) (sd : float) (y : nat) (xs : list nat)
    (ws : list float) (t : float) :
  fold_left (GaussianMask.push_weight exp size sd y) xs (ws, t)
  = (ws ++ map (fun x => GaussianMask.weight_at exp size sd x y) xs,
     fold_left PrimFloat.add (map (fun x => GaussianMask.weight_at exp size sd x y) xs) t).
Proof.
  revert ws t; induction xs as [| x xs IH]; intros ws t; simpl.
  - now rewrite app_nil_r.
  - unfold GaussianMask.push_weight at 2. simpl. rewrite IH, <- app_assoc. reflexivity.
Qed.

Lemma mask_rows_fold (size : nat) (sd : float) (ys : list nat) (ws : list float) (t : float) :
  fold_left (fun acc y => fold_left (GaussianMask.push_weight exp size sd y) (seq 0 size) acc)
            ys (ws, t)
  = (ws ++ flat_map (fun y => map (fun x => GaussianMask.weight_at exp size sd x y) (seq 0 size)) ys,
     fold_left PrimFloat.add
       (flat_map (fun y => map (fun x => GaussianMask.weight_at exp size sd x y) (seq 0 size)) ys) t).
Proof.
  revert ws t; induction ys as [| y ys IH]; intros ws t; simpl.
  - now rewrite app_nil_r.
  - rewrite push_weight_fold, IH, <- app_assoc, fold_left_app. reflexivity.
Qed.

Lemma mask_new_rows (size : nat) (sd : float) :
  GaussianMask.weights (GaussianMask.new exp size sd) = mask_rows exp size sd
  /\ GaussianMask.total_weight (GaussianMask.new exp size sd)
     = fold_left PrimFloat.add (mask_rows exp size sd) 0%float.
Proof.
  unfold GaussianMask.new, mask_rows. rewrite mask_rows_fold. simpl. split; reflexivity.
Qed.

Lemma rows_length {A} (g : nat -> nat -> A) (size a n : nat) :
  List.length (flat_map (fun y => map (g y) (seq 0 size)) (seq a n)) = n * size.
Proof.
  revert a; induction n as [| n IH]; intros a; simpl; [reflexivity |].
  rewrite length_app, length_map, length_seq, IH. lia.
Qed.

Lemma rows_nth {A} (g : nat -> nat -> A) (size a n j x : nat) :
  j < n -> x < size ->
  nth_error (flat_map (fun y => map (g y) (seq 0 size)) (seq a n)) (j * size + x)
  = Some (g (a + j) x).
Proof.
  revert a j; induction n as [| n IH]; intros a j Hj Hx; [lia |].
  simpl. destruct j as [| j].
  - rewrite nth_error_app1 by (rewrite length_map, length_seq; lia).
    rewrite nth_error_map, nth_error_seq.
    replace (Nat.ltb (0 * size + x) size) with true by (symmetry; apply Nat.ltb_lt; lia).
    simpl. f_equal. f_equal; lia.
  - rewrite nth_error_app2 by (rewrite length_map, length_seq; lia).
    rewrite length_map, length_seq.
    replace (S j * size + x - size) with (j * size + x) by lia.
    rewrite IH by lia. f_equal. f_equal. lia.
Qed.

Lemma mask_weights_length (size : nat) (sd : float) :
  List.length (GaussianMask.weights (GaussianMask.new exp size sd)) = size * size.
Proof.
  rewrite (proj1 (mask_new_rows size sd)). unfold mask_rows.
  apply (rows_length (fun y x => GaussianMask.weight_at exp size sd x y)).
Qed.

Lemma mask_weights_nth (size : nat) (sd : float) (x y : nat) :
  x < size -> y < size ->
  nth_error (GaussianMask.weights (GaussianMask.new exp size sd)) (y * size + x)
  = Some (GaussianMask.weight_at exp size sd x y).
Proof.
  intros Hx Hy. rewrite (proj1 (mask_new_rows size sd)). unfold mask_rows.
  apply (rows_nth (fun y x => GaussianMask.weight_at exp size sd x y)); assumption.
Qed.

(** Whatever the signs of [dx], [dy] and [sigma], the exponent
    [-(dx * dx + dy * dy) / (2 * sigma * sigma)] of a Gaussian weight is
    [<= 0] or NaN: the squares are [+] (or NaN), so is their sum, and the
    quotient of a [-] value by a [+] one is [-] (or NaN). *)
Lemma gaussian_exponent_sign (dx dy sigma : float) :
  let e := ((- (dx * dx + dy * dy)) / (2 * sigma * sigma))%float in
  PrimFloat.is_nan e = true \/ (e <=? 0)%float = true.
Proof.
  cbv zeta. apply nonpos_or_nan.
  rewrite FloatAxioms.div_spec, FloatAxioms.opp_spec, FloatAxioms.add_spec, !FloatAxioms.mul_spec.
  unfold SF64div, SF64add, SF64mul.
  destruct (any_sign (Prim2SF dx)) as [sx Hx].
  destruct (any_sign (Prim2SF dy)) as [sy Hy].
  destruct (any_sign (Prim2SF sigma)) as [ss Hs].
  assert (H2 : sign_or_nan false (Prim2SF 2%float)) by reflexivity.
  pose proof (SFmul_sign _ _ _ _ Hx Hx) as Mx. rewrite xorb_nilpotent in Mx.
  pose proof (SFmul_sign _ _ _ _ Hy Hy) as My. rewrite xorb_nilpotent in My.
  pose proof (SFopp_sign _ _ (SFadd_nonneg _ _ Mx My)) as N.
  pose proof (SFmul_sign _ _ _ _ (SFmul_sign _ _ _ _ H2 Hs) Hs) as D.
  rewrite xorb_false_l, xorb_nilpotent in D.
  exact (SFdiv_sign _ _ _ _ N D).
Qed.

(** C5 (as amended): [GaussianMask::new(size, sigma_divisor)] has exactly
    [size * size] weights in row-major order (index [y * size + x] holds the
    weight of column [x] of row [y]: [exp(-d^2 / (2 sigma^2))] in [f64] when
    [sigma_divisor > 0]), and [total_weight] is the [f64] sum of the weights
    accumulated in that order. For an [exp] that maps [[-inf, 0]] into
    [[0, 1]] and NaN to NaN, as [f64::exp] does, every weight is in [[0, 1]]
    or NaN; it need not be positive. *)
Theorem gaussian_mask_shape (size : nat) (sigma_divisor : float)
    (Hexp : forall x, (x <=? 0)%float = true ->
                      (0 <=? exp x)%float = true /\ (exp x <=? 1)%float = true)
    (Hnan : forall x, PrimFloat.is_nan x = true -> PrimFloat.is_nan (exp x) = true) :
  let m := GaussianMask.new exp size sigma_divisor in
  List.length (GaussianMask.weights m) = size * size
  /\ (forall x y, x < size -> y < size ->
        nth_error (GaussianMask.weights m) (y * size + x)
        = Some (GaussianMask.weight_at exp size sigma_divisor x y))
  /\ (forall w, In w (GaussianMask.weights m) ->
        PrimFloat.is_nan w = true \/ ((0 <=? w)%float = true /\ (w <=? 1)%float = true))
  /\ GaussianMask.total_weight m = fold_left PrimFloat.add (GaussianMask.weights m) 0%float
  /\ ((0 <? sigma_divisor)%float = true ->
      forall x y, GaussianMask.weight_at exp size sigma_divisor x y
        = exp ((- ((nat_as_f64 x - nat_as_f64 size / 2) * (nat_as_f64 x - nat_as_f64 size / 2)
                  + (nat_as_f64 y - nat_as_f64 size / 2) * (nat_as_f64 y - nat_as_f64 size / 2)))
               / (2 * (nat_as_f64 size / sigma_divisor) * (nat_as_f64 size / sigma_divisor)))%float).
Proof.
  cbv zeta. split; [apply mask_weights_length |].
  split; [intros; apply mask_weights_nth; assumption |].
  split; [| split].
  - intros w Hw. rewrite (proj1 (mask_new_rows size sigma_divisor)) in Hw.
    unfold mask_rows in Hw. apply in_flat_map in Hw as [y [_ Hy]].
    apply in_map_iff in Hy as [x [<- _]].
    unfold GaussianMask.weight_at. cbv zeta.
    destruct (0 <? sigma_divisor)%float; [| right; split; reflexivity].
    pose proof (gaussian_exponent_sign (nat_as_f64 x - nat_as_f64 size / 2)
                  (nat_as_f64 y - nat_as_f64 size / 2) (nat_as_f64 size / sigma_divisor)) as He.
    cbv zeta in He. destruct He as [He | He]; [left; now apply Hnan | right; now apply Hexp].
  - destruct (mask_new_rows size sigma_divisor) as [E1 E2]. rewrite E1. exact E2.
  - intros Hpos x y. unfold GaussianMask.weight_at. rewrite Hpos. reflexivity.
Qed.

(** ** [avg_rgb_with_mask] *)

Lemma avg_fold (weights : list float) (wf : nat -> float) (l : list (nat * Rgba))
    (r g b : float) :
  (forall ip, In ip l -> nth_error weights (fst ip) = Some (wf (fst ip))) ->
  fold_left (avg_step weights) l (Some (r, g, b))
  = Some (fold_left (fun acc ip => (acc + nat_as_f64 (ch0 (snd ip)) * wf (fst ip))%float) l r,
          fold_left (fun acc ip => (acc + nat_as_f64 (ch1 (snd ip)) * wf (fst ip))%float) l g,
          fold_left (fun acc ip => (acc + nat_as_f64 (ch2 (snd ip)) * wf (fst ip))%float) l b).
Proof.
  revert r g b; induction l as [| ip l IH]; intros r g b Hin; simpl; [reflexivity |].
  rewrite (Hin ip (or_introl eq_refl)).
  apply IH. intros ip' H. apply Hin. now right.
Qed.

Lemma enumerate_index {A} (l : list A) (i : nat) (a : A) :
  In (i, a) (enumerate l) -> i < List.length l.
Proof.
  unfold enumerate. intros H. apply in_combine_l, in_seq in H. lia.
Qed.

Lemma mask_index_weight (size : nat) (sd : float) (i : nat) :
  i < size * size ->
  nth_error (GaussianMask.weights (GaussianMask.new exp size sd)) i
  = Some (GaussianMask.weight_at exp size sd (i mod size) (i / size)).
Proof.
  intros Hi. assert (Hs : size <> 0) by (intro; subst; simpl in Hi; lia).
  rewrite <- (mask_weights_nth size sd (i mod size) (i / size)).
  - f_equal. pose proof (Nat.div_mod_eq i size). lia.
  - apply Nat.mod_upper_bound; exact Hs.
  - apply Nat.Div0.div_lt_upper_bound. lia.
Qed.

Lemma avg_rgb_with_mask_value (img : Image) (size : nat) (sigma_divisor : float) :
  width img = size -> height img = size -> well_formed img ->
  avg_rgb_with_mask img (GaussianMask.new exp size sigma_divisor)
  = Some ((channel_sum exp ch0 size sigma_divisor (pixels img)
           / GaussianMask.total_weight (GaussianMask.new exp size sigma_divisor))%float,
          (channel_sum exp ch1 size sigma_divisor (pixels img)
           / GaussianMask.total_weight (GaussianMask.new exp size sigma_divisor))%float,
          (channel_sum exp ch2 size sigma_divisor (pixels img)
           / GaussianMask.total_weight (GaussianMask.new exp size sigma_divisor))%float).
Proof.
  intros Hw Hh Hwf. unfold well_formed in Hwf. rewrite Hw, Hh in Hwf.
  unfold avg_rgb_with_mask, channel_sum.
  rewrite (avg_fold _ (fun i => GaussianMask.weight_at exp size sigma_divisor (i mod size) (i / size))).
  - reflexivity.
  - intros [i p] H. simpl. apply mask_index_weight. apply enumerate_index in H. lia.
Qed.

(** C9: when the image is [size x size] and the mask is built for [size],
    every index [i] of [enumerate(pixels())] is below [size^2], the length of
    the weight array, so no lookup panics; the result is, per channel, the
    [f64] sum over the pixels in row-major order of the channel times the
    mask weight of the same position, divided by [total_weight]. *)
Theorem avg_rgb_with_mask_in_bounds (img : Image) (size : nat) (sigma_divisor : float)
    (Hw : width img = size) (Hh : height img = size) (Hwf : well_formed img) :
  let m := GaussianMask.new exp size sigma_divisor in
  (forall i p, In (i, p) (enumerate (pixels img)) ->
     i < size * size /\ size * size = List.length (GaussianMask.weights m))
  /\ avg_rgb_with_mask img m
     = Some ((channel_sum exp ch0 size sigma_divisor (pixels img) / GaussianMask.total_weight m)%float,
             (channel_sum exp ch1 size sigma_divisor (pixels img) / GaussianMask.total_weight m)%float,
             (channel_sum exp ch2 size sigma_divisor (pixels img) / GaussianMask.total_weight m)%float).
Proof.
  cbv zeta. split.
  - intros i p H. apply enumerate_index in H. unfold well_formed in Hwf.
    rewrite Hw, Hh in Hwf. split; [lia |]. symmetry. apply mask_weights_length.
  - apply avg_rgb_with_mask_value; assumption.
Qed.

End Mask.

Lemma exp_stub_props :
  (forall x, (x <=? 0)%float = true ->
             (0 <=? exp_stub x)%float = true /\ (exp_stub x <=? 1)%float = true)
  /\ (forall x, PrimFloat.is_nan x = true -> PrimFloat.is_nan (exp_stub x) = true).
Proof.
  unfold exp_stub. split; intros x Hx; destruct (PrimFloat.is_nan x) eqn:E.
  - rewrite nan_leb in Hx by exact E. discriminate.
  - split; reflexivity.
  - exact E.
  - discriminate.
Qed.

Lemma gaussian_mask_shape_witness :
  List.length (GaussianMask.weights (GaussianMask.new exp_stub 3 4)) = 9
  /\ nth_error (GaussianMask.weights (GaussianMask.new exp_stub 3 4)) 5
     = Some (GaussianMask.weight_at exp_stub 3 4 2 1).
Proof.
  destruct (gaussian_mask_shape exp_stub 3 4 (proj1 exp_stub_props) (proj2 exp_stub_props))
    as (L & N & _).
  split; [exact L | exact (N 2 1 ltac:(lia) ltac:(lia))].
Defined.

(** C5 as stated fails: with [sigma_divisor = 2^1000] the denominator
    [2 * sigma * sigma] underflows to [+0]. For [size = 1] the exponent is
    [-0.5 / +0 = -inf] and the only weight is [exp(-inf) = 0], not in
    [(0, 1]]; for [size = 2] the centre pixel has exponent [-0 / +0 = NaN]
    and its weight is NaN. *)
Lemma gaussian_mask_zero_and_nan_weights :
  (0 <? 0x1p1000)%float = true
  /\ (forall exp : float -> float, exp neg_infinity = 0%float ->
        GaussianMask.weights (GaussianMask.new exp 1 0x1p1000) = [0%float])
  /\ (forall exp : float -> float,
        (forall x, PrimFloat.is_nan x = true -> PrimFloat.is_nan (exp x) = true) ->
        exists w, nth_error (GaussianMask.weights (GaussianMask.new exp 2 0x1p1000)) 3 = Some w
                  /\ PrimFloat.is_nan w = true).
Proof.
  split; [vm_compute; reflexivity |]. split.
  - intros ex H.
    replace (GaussianMask.weights (GaussianMask.new ex 1 0x1p1000)) with [ex neg_infinity]
      by (vm_compute; reflexivity).
    rewrite H. reflexivity.
  - intros ex Hn. exists (GaussianMask.weight_at ex 2 0x1p1000 1 1).
    split; [exact (mask_weights_nth ex 2 0x1p1000 1 1 ltac:(lia) ltac:(lia)) |].
    replace (GaussianMask.weight_at ex 2 0x1p1000 1 1) with (ex nan) by (vm_compute; reflexivity).
    apply Hn. vm_compute. reflexivity.
Qed.

Lemma avg_rgb_with_mask_in_bounds_witness :
  width (mkImage 2 2 (repeat (mkRgba 10 20 30 255) 4)) = 2
  /\ avg_rgb_with_mask (mkImage 2 2 (repeat (mkRgba 10 20 30 255) 4)) (GaussianMask.new exp_stub 2 4)
     <> None.
Proof.
  split; [reflexivity |].
  destruct (avg_rgb_with_mask_in_bounds exp_stub (mkImage 2 2 (repeat (mkRgba 10 20 30 255) 4)) 2 4
              eq_refl eq_refl eq_refl) as [_ E].
  rewrite E. discriminate.
Defined.

(** ** Construction *)

Section Construction.
Variable walk_dir : string -> list (option (string * bool)).
Variable load_image_with_orientation : string -> AppResult Image.
Variable resize_to_fill : Image -> nat -> nat -> Image.
(** [resize_to_fill(n, n)] yields an [n x n] image (the repository's test
    [load_resized_image_with_orientation_resizes_to_tile_size] checks it). *)
Hypothesis resize_to_fill_dims : forall img n,
  width (resize_to_fill img n n) = n /\ height (resize_to_fill img n n) = n
  /\ well_formed (resize_to_fill img n n).
(** [f64::exp]. *)
Variable exp : float -> float.

Lemma load_tile_spec (size : nat) (sd : float) (p : string) :
  exists c,
    load_tile load_image_with_orientation resize_to_fill size (GaussianMask.new exp size sd) p
    = Some (if tile_survives load_image_with_orientation resize_to_fill size p
            then Some (Tile.new p c size) else None).
Proof.
  unfold load_tile, tile_survives, load_resized_image_with_orientation.
  destruct (supported_extension p); simpl; [| exists (0, 0, 0)%float; reflexivity].
  destruct (load_image_with_orientation p) as [img | e]; [| exists (0, 0, 0)%float; reflexivity].
  destruct (resize_to_fill_dims img size) as (Hw & Hh & Hwf).
  rewrite (avg_rgb_with_mask_value exp _ size sd Hw Hh Hwf).
  eexists. reflexivity.
Qed.

Lemma collect_tiles_spec (size : nat) (sd : float) (paths : list string) :
  exists ts,
    collect_tiles load_image_with_orientation resize_to_fill size (GaussianMask.new exp size sd) paths
    = Some ts
    /\ map Tile.path ts = filter (tile_survives load_image_with_orientation resize_to_fill size) paths.
Proof.
  induction paths as [| p paths (ts & E & Hp)]; simpl.
  - exists []. split; reflexivity.
  - destruct (load_tile_spec size sd p) as [c Ec]. rewrite Ec, E.
    destruct (tile_survives load_image_with_orientation resize_to_fill size p).
    + exists (Tile.new p c size :: ts). split; [reflexivity |]. simpl. now rewrite Hp.
    + exists ts. split; [reflexivity | exact Hp].
Qed.

End Construction.

(** C3: [TileLibrary::new] never panics and returns an error only as
    [Config]; it returns [Config] exactly when no enumerated file has a
    supported extension and loads; otherwise the library holds at least one
    tile, one per surviving file in enumeration order (failing files are
    dropped, not reported). *)
Theorem new_config_error_iff_no_tile
    (walk_dir : string -> list (option (string * bool)))
    (load_image_with_orientation : string -> AppResult Image)
    (resize_to_fill : Image -> nat -> nat -> Image)
    (resize_to_fill_dims : forall img n,
        width (resize_to_fill img n n) = n /\ height (resize_to_fill img n n) = n
        /\ well_formed (resize_to_fill img n n))
    (exp : float -> float)
    (dir : string) (size : nat) (sigma_divisor : float) :
  let r := new walk_dir load_image_with_orientation resize_to_fill exp dir size sigma_divisor in
  let survives := tile_survives load_image_with_orientation resize_to_fill size in
  r <> Panicked
  /\ (forall e, r = Failed e -> exists msg, e = AppError.Config msg)
  /\ ((exists msg, r = Failed (AppError.Config msg)) <->
      forall p, In p (dir_entries walk_dir dir) -> survives p = false)
  /\ (forall lib, r = Returned lib ->
        1 <= List.length (TileLibrary.tiles lib)
        /\ map Tile.path (TileLibrary.tiles lib) = filter survives (dir_entries walk_dir dir)).
Proof.
  cbv zeta.
  destruct (collect_tiles_spec load_image_with_orientation resize_to_fill resize_to_fill_dims
              exp size sigma_divisor (dir_entries walk_dir dir)) as (ts & E & Hp).
  unfold new, load_library. rewrite E.
  assert (Hnil : filter (tile_survives load_image_with_orientation resize_to_fill size)
                   (dir_entries walk_dir dir) = []
                 <-> forall p, In p (dir_entries walk_dir dir) ->
                       tile_survives load_image_with_orientation resize_to_fill size p = false).
  { split.
    - intros H p Hin. destruct (tile_survives _ _ size p) eqn:Ep; [| reflexivity].
      assert (In p (filter (tile_survives load_image_with_orientation resize_to_fill size)
                      (dir_entries walk_dir dir))) by (apply filter_In; auto).
      rewrite H in *. contradiction.
    - intros H. destruct (filter _ _) as [| q l] eqn:Ef; [reflexivity |].
      assert (Hq : In q (filter (tile_survives load_image_with_orientation resize_to_fill size)
                           (dir_entries walk_dir dir))) by (rewrite Ef; now left).
      apply filter_In in Hq as [Hq1 Hq2]. rewrite H in Hq2 by exact Hq1. discriminate. }
  destruct ts as [| t ts].
  - simpl in Hp. split; [discriminate |]. split.
    + intros e He. inversion He. eexists; reflexivity.
    + split; [split; [intros _; apply Hnil; symmetry; exact Hp | intros _; eexists; reflexivity] |].
      intros lib Hl. discriminate.
  - split; [discriminate |]. split; [intros e He; discriminate |]. split.
    + split; [intros [msg Hm]; discriminate |].
      intros H. apply Hnil in H. rewrite H in Hp. discriminate.
    + intros lib Hl. injection Hl as <-. simpl. split; [lia | exact Hp].
Qed.

Lemma new_config_error_iff_no_tile_witness :
  let resize := fun (_ : Image) (w h : nat) => mkImage w h (repeat (mkRgba 1 2 3 255) (w * h)) in
  let walk := fun (_ : string) => [Some ("t/a.png", true); Some ("t/b.txt", true); None]%string in
  let load := fun (_ : string) => Ok (mkImage 1 1 [mkRgba 0 0 0 255]) in
  (forall img n, width (resize img n n) = n /\ height (resize img n n) = n
                 /\ well_formed (resize img n n))
  /\ exists lib, new walk load resize (fun _ => 1%float) "t" 2 0 = Returned lib
                 /\ 1 <= List.length (TileLibrary.tiles lib).
Proof.
  cbv zeta.
  assert (Hfill : forall (img : Image) (n : nat),
             width (mkImage n n (repeat (mkRgba 1 2 3 255) (n * n))) = n
             /\ height (mkImage n n (repeat (mkRgba 1 2 3 255) (n * n))) = n
             /\ well_formed (mkImage n n (repeat (mkRgba 1 2 3 255) (n * n)))).
  { intros _ n. split; [reflexivity | split; [reflexivity |]].
    unfold well_formed. simpl. apply repeat_length. }
  split; [exact Hfill |].
  destruct (new_config_error_iff_no_tile
              (fun _ => [Some ("t/a.png", true); Some ("t/b.txt", true); None]%string)
              (fun _ => Ok (mkImage 1 1 [mkRgba 0 0 0 255]))
              (fun _ w h => mkImage w h (repeat (mkRgba 1 2 3 255) (w * h)))
              Hfill (fun _ => 1%float) "t" 2 0) as (_ & _ & _ & H4).
  eexists. split; [vm_compute; reflexivity |].
  apply H4. vm_compute. reflexivity.
Defined.

(** ** What [generate_mosaic] may change *)

Lemma tile_cache_step_refl (t : Tile.t) : tile_cache_step t t.
Proof. unfold tile_cache_step. repeat split; auto. Qed.

Lemma tile_cache_step_trans (a b c : Tile.t) :
  tile_cache_step a b -> tile_cache_step b c -> tile_cache_step a c.
Proof.
  unfold tile_cache_step.
  intros (P1 & C1 & S1 & K1) (P2 & C2 & S2 & K2).
  split; [congruence |]. split; [congruence |]. split; [congruence |].
  destruct K1 as [K1 | (N1 & i1 & K1)], K2 as [K2 | (N2 & i2 & K2)].
  - left. congruence.
  - right. split; [congruence | eauto].
  - right. split; [exact N1 | exists i1; congruence].
  - congruence.
Qed.

Lemma forall2_cache_refl (l : list Tile.t) : Forall2 tile_cache_step l l.
Proof. induction l; constructor; auto using tile_cache_step_refl. Qed.

Lemma forall2_cache_trans (l1 l2 l3 : list Tile.t) :
  Forall2 tile_cache_step l1 l2 -> Forall2 tile_cache_step l2 l3 ->
  Forall2 tile_cache_step l1 l3.
Proof.
  intros H12; revert l3; induction H12 as [| a b l1 l2 Hab H12 IH]; intros l3 H23;
    inversion H23; subst; constructor; eauto using tile_cache_step_trans.
Qed.

Lemma library_frame_refl (l : TileLibrary.t) : library_frame l l.
Proof. unfold library_frame. repeat split; auto using forall2_cache_refl. Qed.

Lemma library_frame_trans (a b c : TileLibrary.t) :
  library_frame a b -> library_frame b c -> library_frame a c.
Proof.
  unfold library_frame. intros (T1 & I1 & D1 & S1 & G1 & M1) (T2 & I2 & D2 & S2 & G2 & M2).
  split; [eapply forall2_cache_trans; eassumption |]. repeat split; congruence.
Qed.

Lemma get_image_cache_step load resize_to_fill (t : Tile.t) :
  tile_cache_step t (snd (get_image load resize_to_fill t)).
Proof.
  unfold get_image. destruct (Tile.image_cache t) as [img |] eqn:Ec.
  - apply tile_cache_step_refl.
  - destruct (load_resized_image_with_orientation load resize_to_fill (Tile.path t) (Tile.tile_size t))
      as [img | e]; simpl.
    + unfold tile_cache_step. simpl. repeat split; auto. right. split; [exact Ec | eauto].
    + apply tile_cache_step_refl.
Qed.

Lemma forall2_list_set (l : list Tile.t) (i : nat) (t t' : Tile.t) :
  nth_error l i = Some t -> tile_cache_step t t' ->
  Forall2 tile_cache_step l (list_set l i t').
Proof.
  revert i; induction l as [| x l IH]; intros [| i] Hn Hs; simpl in *; try discriminate.
  - injection Hn as <-. constructor; [exact Hs | apply forall2_cache_refl].
  - constructor; [apply tile_cache_step_refl | eapply IH; eassumption].
Qed.

Lemma lib_get_image_frame load resize_to_fill (self : TileLibrary.t) (i : nat) :
  library_frame self (snd (lib_get_image load resize_to_fill self i)).
Proof.
  unfold lib_get_image. destruct (nth_error (TileLibrary.tiles self) i) as [t |] eqn:En;
    [| apply library_frame_refl].
  pose proof (get_image_cache_step load resize_to_fill t) as Hs.
  destruct (get_image load resize_to_fill t) as [r t'] eqn:Eg. simpl in Hs.
  assert (Hf : library_frame self
                 (TileLibrary.mk (list_set (TileLibrary.tiles self) i t')
                    (TileLibrary.color_index self) (TileLibrary.src_dir self)
                    (TileLibrary.tile_size self) (TileLibrary.sigma_divisor self)
                    (TileLibrary.mask self))).
  { unfold library_frame. simpl. repeat split; auto. eapply forall2_list_set; eassumption. }
  destruct r; exact Hf.
Qed.

Lemma paint_frame load resize_to_fill overlay (jobs : list ((nat * nat) * nat)) :
  forall (self : TileLibrary.t) (canvas : Image),
    library_frame self (snd (paint load resize_to_fill overlay self canvas jobs)).
Proof.
  induction jobs as [| [[x y] best] jobs IH]; intros self canvas; simpl;
    [apply library_frame_refl |].
  pose proof (lib_get_image_frame load resize_to_fill self best) as Hf.
  destruct (lib_get_image load resize_to_fill self best) as [[img | e |] self'] eqn:E;
    simpl in *.
  - eapply library_frame_trans; [exact Hf | apply IH].
  - exact Hf.
  - exact Hf.
Qed.

(** C10: whatever [generate_mosaic] returns (a data URI, an error or a
    panic), the library after the call keeps its tiles' number, order, paths,
    colours and sizes, its colour index, [src_dir], [tile_size],
    [sigma_divisor] and mask; each tile's cache is unchanged or goes from
    empty to populated, never replaced once populated. *)
Theorem generate_mosaic_frame load resize_to_fill resize_exact overlay encode nearest_n
    (self : TileLibrary.t) (target_path : string) (config : MosaicConfig) :
  library_frame self
    (snd (generate_mosaic load resize_to_fill resize_exact overlay encode nearest_n
            self target_path config)).
Proof.
  unfold generate_mosaic.
  destruct (load target_path) as [target_img | e]; [| apply library_frame_refl].
  destruct (pad_dim (Z.of_nat (width target_img)) _) as [pw |];
    [| apply library_frame_refl].
  destruct (pad_dim (Z.of_nat (height target_img)) _) as [ph |];
    [| apply library_frame_refl].
  cbv zeta.
  match goal with
  | |- context [select_tiles ?a ?b ?c ?d ?e ?f] =>
      destruct (select_tiles a b c d e f) as [matches |]; [| apply library_frame_refl]
  end.
  match goal with
  | |- context [paint ?a ?b ?c ?d ?e ?f] =>
      pose proof (paint_frame a b c f d e) as Hp;
      destruct (paint a b c d e f) as [[canvas | e' |] self'] eqn:E; simpl in *; try exact Hp
  end.
  match goal with
  | |- context [encode ?i] => destruct (encode i); exact Hp
  end.
Qed.

(** ** The order of [f64] values

    [<] on [f64] is [SFltb] on the spec floats ([FloatAxioms.ltb_spec]); the
    lemmas below are proved there by case analysis on the representation. *)

Ltac cmp_split :=
  repeat match goal with
  | |- context [Z.compare ?a ?b] => destruct (Z.compare_spec a b); try subst a
  | |- context [Pos.compare_cont Eq ?a ?b] =>
      change (Pos.compare_cont Eq a b) with (Pos.compare a b);
      destruct (Pos.compare_spec a b); try subst a
  end.

Ltac sf_cases x y z :=
  destruct x as [sx | sx | | sx mx ex], y as [sy | sy | | sy my ey],
    z as [sz | sz | | sz mz ez];
  try destruct sx; try destruct sy; try destruct sz; unfold SFltb; simpl;
  try discriminate; try reflexivity; try congruence;
  cmp_split; simpl; intros; try discriminate; try reflexivity; try congruence; lia.

Lemma SFltb_trans (x y z : spec_float) :
  SFltb x y = true -> SFltb y z = true -> SFltb x z = true.
Proof. sf_cases x y z. Qed.

Lemma SFltb_nlt_trans (x y z : spec_float) :
  y <> S754_nan -> SFltb x y = false -> SFltb y z = false -> SFltb x z = false.
Proof. sf_cases x y z. Qed.

Lemma SFltb_lt_nlt (x y z : spec_float) :
  z <> S754_nan -> SFltb x y = true -> SFltb z y = false -> SFltb x z = true.
Proof. sf_cases x y z. Qed.

Lemma SFltb_asym (x y : spec_float) : SFltb x y = true -> SFltb y x = false.
Proof. sf_cases x y S754_nan. Qed.

Lemma SFltb_irrefl (x : spec_float) : SFltb x x = false.
Proof. sf_cases x S754_nan S754_nan. Qed.

(** Adding a zero of either sign does not move a value in the order. *)
Lemma SFltb_add_zero_l (x y : spec_float) (s : bool) :
  SFltb (SF64add x (S754_zero s)) y = SFltb x y.
Proof.
  destruct x as [sx | sx | | sx mx ex], y as [sy | sy | | sy my ey];
    try destruct sx; try destruct sy; destruct s; reflexivity.
Qed.

Lemma SFltb_add_zero_r (x y : spec_float) (s : bool) :
  SFltb y (SF64add x (S754_zero s)) = SFltb y x.
Proof.
  destruct x as [sx | sx | | sx mx ex], y as [sy | sy | | sy my ey];
    try destruct sx; try destruct sy; destruct s; reflexivity.
Qed.

Lemma not_nan_Prim2SF (x : float) : is_nan x = false -> Prim2SF x <> S754_nan.
Proof.
  intros H E. unfold is_nan in H. rewrite FloatAxioms.eqb_spec, E in H. discriminate.
Qed.

Lemma flt_irrefl (x : float) : (x <? x)%float = false.
Proof. rewrite FloatAxioms.ltb_spec. apply SFltb_irrefl. Qed.

Lemma flt_asym (x y : float) : (x <? y)%float = true -> (y <? x)%float = false.
Proof. rewrite !FloatAxioms.ltb_spec. apply SFltb_asym. Qed.

Lemma flt_trans (x y z : float) :
  (x <? y)%float = true -> (y <? z)%float = true -> (x <? z)%float = true.
Proof. rewrite !FloatAxioms.ltb_spec. apply SFltb_trans. Qed.

Lemma flt_nlt_trans (x y z : float) :
  is_nan y = false -> (x <? y)%float = false -> (y <? z)%float = false -> (x <? z)%float = false.
Proof. rewrite !FloatAxioms.ltb_spec. intros H. apply SFltb_nlt_trans, not_nan_Prim2SF, H. Qed.

Lemma flt_lt_nlt (x y z : float) :
  is_nan z = false -> (x <? y)%float = true -> (z <? y)%float = false -> (x <? z)%float = true.
Proof. rewrite !FloatAxioms.ltb_spec. intros H. apply SFltb_lt_nlt, not_nan_Prim2SF, H. Qed.

Lemma flt_not_nan (x y : float) : (x <? y)%float = true -> is_nan x = false.
Proof.
  intros H. destruct (is_nan x) eqn:E; [| reflexivity].
  rewrite FloatAxioms.ltb_spec, (is_nan_Prim2SF x E) in H. discriminate.
Qed.

(** A finite [f64] is a zero or a finite non-zero spec float. *)
Lemma is_finite_Prim2SF (p : float) :
  is_finite p = true ->
  match Prim2SF p with S754_zero _ | S754_finite _ _ _ => True | _ => False end.
Proof.
  unfold is_finite. intros H. unfold Prim2SF.
  destruct (is_nan p), (is_infinity p); simpl in H; try discriminate;
    destruct (is_zero p); trivial.
  destruct (Z.frexp p). destruct (shr_fexp _ _ _ _ _). destruct (shr_m _); trivial.
Qed.

(** With a zero usage count and a finite penalty, the penalty term is a zero. *)
Lemma zero_penalty_term (p : float) :
  is_finite p = true ->
  exists s, Prim2SF (nat_as_f64 0 * p * PENALTY_MULTIPLIER)%float = S754_zero s.
Proof.
  intros H. pose proof (is_finite_Prim2SF p H) as Hp.
  rewrite !FloatAxioms.mul_spec.
  replace (Prim2SF (nat_as_f64 0)) with (S754_zero false) by reflexivity.
  unfold SF64mul.
  destruct (Prim2SF p) as [sp | sp | | sp mp ep]; try contradiction; simpl;
    destruct (Prim2SF PENALTY_MULTIPLIER) as [s50 | s50 | | s50 m50 e50] eqn:E50;
    try (vm_compute in E50; discriminate); eexists; reflexivity.
Qed.

Lemma nth_all_zero (usage_counts : list nat) (i : nat) :
  Forall (fun u => u = 0) usage_counts -> nth i usage_counts 0 = 0.
Proof.
  intros H. revert i. induction H as [| u l Hu _ IH]; intros [| i]; simpl; auto.
Qed.

(** With every usage count zero and a finite penalty, scores are ordered as
    the colour distances are. *)
Lemma zero_usage_score (usage_counts : list nat) (penalty : float) :
  Forall (fun u => u = 0) usage_counts -> is_finite penalty = true ->
  exists s, forall c,
    Prim2SF (candidate_score usage_counts penalty c) = SF64add (Prim2SF (snd c)) (S754_zero s).
Proof.
  intros Hz Hp. destruct (zero_penalty_term penalty Hp) as [s Hs].
  exists s. intros c. unfold candidate_score.
  rewrite FloatAxioms.add_spec, nth_all_zero by exact Hz. now rewrite Hs.
Qed.

(** ** The candidate loop of [find_best_tile] *)

Lemma score_step_some (usage_counts : list nat) (penalty : float) (b : nat) (s : float)
    (c : nat * float) :
  fst c < List.length usage_counts ->
  TileLibrary.score_step usage_counts penalty (Some (b, s)) c
  = Some (if (candidate_score usage_counts penalty c <? s)%float
          then (fst c, candidate_score usage_counts penalty c) else (b, s)).
Proof.
  intros H. unfold TileLibrary.score_step, candidate_score.
  destruct (nth_error usage_counts (fst c)) as [u |] eqn:E.
  - rewrite (nth_error_nth usage_counts (fst c) 0 E). now destruct (_ <? s)%float.
  - apply nth_error_None in E. lia.
Qed.

(** The loop returns the first minimum, by score, of the initial pair
    followed by the scored candidates. *)
Lemma score_fold_first_min (usage_counts : list nat) (penalty : float)
    (l : list (nat * float)) :
  forall b s,
  (forall c, In c l -> fst c < List.length usage_counts) ->
  (forall c, In c l -> is_nan (candidate_score usage_counts penalty c) = false) ->
  is_nan s = false ->
  exists i r,
    fold_left (TileLibrary.score_step usage_counts penalty) l (Some (b, s)) = Some r
    /\ first_min snd ((b, s) :: map (fun c => (fst c, candidate_score usage_counts penalty c)) l)
         i r.
Proof.
  induction l as [| c l IH]; intros b s Hidx Hnan Hs.
  - exists 0, (b, s). split; [reflexivity |].
    split; [reflexivity |]. split.
    + intros a' [<- | []]. apply flt_irrefl.
    + intros j a' Hj. lia.
  - cbn [fold_left]. rewrite score_step_some by (apply Hidx; left; reflexivity).
    set (sc := candidate_score usage_counts penalty c).
    assert (Hsc : is_nan sc = false) by (apply Hnan; left; reflexivity).
    destruct (sc <? s)%float eqn:Hlt.
    + destruct (IH (fst c) sc (fun c' H => Hidx c' (or_intror H))
                  (fun c' H => Hnan c' (or_intror H)) Hsc)
        as [i [r [Hf [Hn [Hall Hbef]]]]].
      simpl map. exists (S i), r. split; [exact Hf |].
      destruct i as [| i].
      * simpl in Hn. injection Hn as <-. split; [reflexivity |]. split.
        -- intros a' [<- | [<- | Hin]]; simpl.
           ++ now apply flt_asym.
           ++ apply flt_irrefl.
           ++ apply Hall. now right.
        -- intros j a' Hj Hj'. destruct j as [| j]; [| lia].
           simpl in Hj'. injection Hj' as <-. exact Hlt.
      * assert (Hr : (snd r <? sc)%float = true) by exact (Hbef 0 (fst c, sc) ltac:(lia) eq_refl).
        split; [exact Hn |]. split.
        -- intros a' [<- | [<- | Hin]]; simpl.
           ++ apply flt_asym, (flt_trans _ sc); assumption.
           ++ apply (Hall (fst c, sc)). now left.
           ++ apply Hall. now right.
        -- intros j a' Hj Hj'. destruct j as [| [| j]].
           ++ simpl in Hj'. injection Hj' as <-. apply (flt_trans _ sc); assumption.
           ++ simpl in Hj'. injection Hj' as <-. exact Hr.
           ++ apply (Hbef (S j)); [lia | exact Hj'].
    + destruct (IH b s (fun c' H => Hidx c' (or_intror H))
                  (fun c' H => Hnan c' (or_intror H)) Hs)
        as [i [r [Hf [Hn [Hall Hbef]]]]].
      simpl map. rewrite Hf.
      destruct i as [| i].
      * simpl in Hn. injection Hn as <-. exists 0, (b, s).
        split; [reflexivity |]. split; [reflexivity |]. split.
        -- intros a' [<- | [<- | Hin]]; simpl.
           ++ apply flt_irrefl.
           ++ exact Hlt.
           ++ apply Hall. now right.
        -- intros j a' Hj. lia.
      * exists (S (S i)), r. split; [reflexivity |].
        assert (Hr : (snd r <? s)%float = true) by exact (Hbef 0 (b, s) ltac:(lia) eq_refl).
        split; [exact Hn |]. split.
        -- intros a' [<- | [<- | Hin]]; simpl.
           ++ now apply flt_asym.
           ++ apply (flt_nlt_trans _ s); [exact Hs | exact Hlt |].
              apply (Hall (b, s)). now left.
           ++ apply Hall. now right.
        -- intros j a' Hj Hj'. destruct j as [| [| j]].
           ++ simpl in Hj'. injection Hj' as <-. exact Hr.
           ++ simpl in Hj'. injection Hj' as <-. simpl. now apply (flt_lt_nlt _ s).
           ++ apply (Hbef (S j)); [lia | exact Hj'].
Qed.

(** Starting from [(0, f64::MAX)], the loop returns the first candidate of
    minimum score when every score is below [f64::MAX]. *)
Lemma best_of_candidates_first_min (usage_counts : list nat) (penalty : float)
    (nearest : list (nat * float)) :
  nearest <> [] ->
  (forall c, In c nearest -> fst c < List.length usage_counts) ->
  (forall c, In c nearest -> (candidate_score usage_counts penalty c <? f64_MAX)%float = true) ->
  exists i c, first_min (candidate_score usage_counts penalty) nearest i c
              /\ TileLibrary.best_of_candidates nearest usage_counts penalty = Some (fst c).
Proof.
  intros Hne Hidx Hmax.
  destruct (score_fold_first_min usage_counts penalty nearest 0 f64_MAX Hidx
              (fun c H => flt_not_nan _ _ (Hmax c H)) eq_refl)
    as [i [r [Hf [Hn [Hall Hbef]]]]].
  unfold TileLibrary.best_of_candidates. rewrite Hf.
  destruct i as [| i].
  - exfalso. simpl in Hn. injection Hn as <-.
    destruct nearest as [| c0 l]; [congruence |].
    specialize (Hall (fst c0, candidate_score usage_counts penalty c0)
                  (or_intror (or_introl eq_refl))).
    simpl in Hall. rewrite (Hmax c0 (or_introl eq_refl)) in Hall. discriminate.
  - simpl in Hn. rewrite nth_error_map in Hn.
    destruct (nth_error nearest i) as [c |] eqn:Hc; [| discriminate].
    simpl in Hn. injection Hn as <-.
    exists i, c. split; [| reflexivity].
    split; [exact Hc |]. split.
    + intros a' Hin.
      exact (Hall (fst a', candidate_score usage_counts penalty a')
               (or_intror (in_map (fun c => (fst c, candidate_score usage_counts penalty c)) _ _ Hin))).
    + intros j a' Hj Hj'.
      apply (Hbef (S j) (fst a', candidate_score usage_counts penalty a')); [lia |].
      simpl. now rewrite nth_error_map, Hj'.
Qed.

Lemma kd_tree_k_nonzero (n : nat) : Nat.eqb (kd_tree_k n) 0 = false.
Proof. apply Nat.eqb_neq. unfold kd_tree_k. lia. Qed.

Ltac in_cases tac :=
  let c := fresh "c" in
  let Hc := fresh "Hc" in
  intros c Hc; repeat (destruct Hc as [<- | Hc]; [tac |]); destruct Hc.

(** C1 (counterexample): an infinite penalty makes [0 * penalty] NaN, so
    every score is NaN, no candidate is [<] the initial [f64::MAX], and the
    farther tile [0] is returned although tile [1] is the nearest, with all
    usage counts zero. *)
Lemma find_best_tile_infinite_penalty :
  TileLibrary.find_best_tile (fun _ _ k => firstn k [(1, 1%float); (0, 4%float)])
    (TileLibrary.mk [Tile.new "a.png" (2, 0, 0)%float 1; Tile.new "b.png" (1, 0, 0)%float 1]
       [(2, 0, 0)%float; (1, 0, 0)%float] "tiles" 1 0%float (GaussianMask.mk [1%float] 1%float))
    (0, 0, 0)%float [0; 0] PrimFloat.infinity
  = Some 0
  /\ first_min snd [(1, 1%float); (0, 4%float)] 0 (1, 1%float).
Proof.
  split; [vm_compute; reflexivity |].
  split; [reflexivity |]. split.
  - in_cases ltac:(vm_compute; reflexivity).
  - intros j a' Hj. lia.
Qed.

(** C1: with every usage count zero and a finite penalty, [find_best_tile]
    returns the item of the first candidate, in the order the index yields
    them, of minimum squared colour distance: none is nearer, every earlier
    one is strictly farther. Assumed: the index yields at least one
    candidate, its items index [usage_counts], and its distances are below
    [f64::MAX] (hence not NaN). *)
Theorem find_best_tile_zero_usage_first_min nearest_n (self : TileLibrary.t)
    (target_color : Color) (usage_counts : list nat) (penalty : float)
    (nearest : list (nat * float))
    (Hq : nearest_n (TileLibrary.color_index self) target_color
            (kd_tree_k (List.length (TileLibrary.tiles self))) = nearest)
    (Hne : nearest <> [])
    (Hidx : forall c, In c nearest -> fst c < List.length usage_counts)
    (Hzero : Forall (fun u => u = 0) usage_counts)
    (Hpen : is_finite penalty = true)
    (Hmax : forall c, In c nearest -> (snd c <? f64_MAX)%float = true) :
  exists i c, first_min snd nearest i c
    /\ TileLibrary.find_best_tile nearest_n self target_color usage_counts penalty
       = Some (fst c).
Proof.
  destruct (zero_usage_score usage_counts penalty Hzero Hpen) as [s Hs].
  assert (Hord : forall x y, (candidate_score usage_counts penalty x
                              <? candidate_score usage_counts penalty y)%float
                             = (snd x <? snd y)%float).
  { intros x y. rewrite !FloatAxioms.ltb_spec, !Hs, SFltb_add_zero_l, SFltb_add_zero_r.
    reflexivity. }
  assert (Hmax' : forall c, In c nearest ->
                  (candidate_score usage_counts penalty c <? f64_MAX)%float = true).
  { intros c Hc. rewrite FloatAxioms.ltb_spec, Hs, SFltb_add_zero_l, <- FloatAxioms.ltb_spec.
    now apply Hmax. }
  destruct (best_of_candidates_first_min usage_counts penalty nearest Hne Hidx Hmax')
    as [i [c [[Hn [Hall Hbef]] Hres]]].
  exists i, c. split.
  - split; [exact Hn |]. split.
    + intros a' Hin. rewrite <- Hord. now apply Hall.
    + intros j a' Hj Hj'. rewrite <- Hord. now apply (Hbef j).
  - unfold TileLibrary.find_best_tile. rewrite kd_tree_k_nonzero, Hq. exact Hres.
Qed.

Lemma find_best_tile_zero_usage_first_min_witness :
  exists i c, first_min snd [(1, 1%float); (0, 4%float)] i c
    /\ TileLibrary.find_best_tile (fun _ _ k => firstn k [(1, 1%float); (0, 4%float)])
         (TileLibrary.mk [Tile.new "a.png" (2, 0, 0)%float 1; Tile.new "b.png" (1, 0, 0)%float 1]
            [(2, 0, 0)%float; (1, 0, 0)%float] "tiles" 1 0%float (GaussianMask.mk [1%float] 1%float))
         (0, 0, 0)%float [0; 0] 0.5%float
       = Some (fst c).
Proof.
  apply (find_best_tile_zero_usage_first_min
           (fun _ _ k => firstn k [(1, 1%float); (0, 4%float)])
           (TileLibrary.mk [Tile.new "a.png" (2, 0, 0)%float 1; Tile.new "b.png" (1, 0, 0)%float 1]
              [(2, 0, 0)%float; (1, 0, 0)%float] "tiles" 1 0%float
              (GaussianMask.mk [1%float] 1%float))
           (0, 0, 0)%float [0; 0] 0.5%float [(1, 1%float); (0, 4%float)]).
  - reflexivity.
  - discriminate.
  - in_cases ltac:(simpl; lia).
  - repeat constructor.
  - reflexivity.
  - in_cases ltac:(vm_compute; reflexivity).
Defined.

(** C2 (counterexample): two tiles of identical colour at squared distance
    [100], tile [0] used once and tile [1] never, with the positive penalty
    [2^-70]: the penalty term [50 * 2^-70] is absorbed by rounding, both
    scores are [100], and the used tile [0] is selected again. *)
Lemma find_best_tile_penalty_absorbed :
  TileLibrary.find_best_tile (fun _ _ k => firstn k [(0, 100%float); (1, 100%float)])
    (TileLibrary.mk [Tile.new "a.png" (10, 0, 0)%float 1; Tile.new "b.png" (10, 0, 0)%float 1]
       [(10, 0, 0)%float; (10, 0, 0)%float] "tiles" 1 0%float (GaussianMask.mk [1%float] 1%float))
    (0, 0, 0)%float [1; 0] 0x1p-70%float
  = Some 0
  /\ (0 <? 0x1p-70)%float = true
  /\ candidate_score [1; 0] 0x1p-70%float (0, 100%float)
     = candidate_score [1; 0] 0x1p-70%float (1, 100%float).
Proof. vm_compute. repeat split. Qed.

(** C2: [find_best_tile] scores a candidate [(idx, color_dist)] as the [f64]
    value [color_dist + usage_counts[idx] as f64 * penalty * 50]
    ([candidate_score]) and returns the item of the first candidate, in the
    order the index yields them, of minimum score: no candidate scores
    strictly lower, every earlier one strictly higher. So of two candidates
    the one with the strictly lower [f64] score is preferred. Assumed: the
    index yields at least one candidate, its items index [usage_counts], and
    every score is below [f64::MAX] (hence not NaN). *)
Theorem find_best_tile_first_min_score nearest_n (self : TileLibrary.t)
    (target_color : Color) (usage_counts : list nat) (penalty : float)
    (nearest : list (nat * float))
    (Hq : nearest_n (TileLibrary.color_index self) target_color
            (kd_tree_k (List.length (TileLibrary.tiles self))) = nearest)
    (Hne : nearest <> [])
    (Hidx : forall c, In c nearest -> fst c < List.length usage_counts)
    (Hmax : forall c, In c nearest ->
            (candidate_score usage_counts penalty c <? f64_MAX)%float = true) :
  exists i c, first_min (candidate_score usage_counts penalty) nearest i c
    /\ TileLibrary.find_best_tile nearest_n self target_color usage_counts penalty
       = Some (fst c).
Proof.
  unfold TileLibrary.find_best_tile. rewrite kd_tree_k_nonzero, Hq.
  now apply best_of_candidates_first_min.
Qed.

Lemma find_best_tile_first_min_score_witness :
  exists i c, first_min (candidate_score [1; 0] 0.5%float) [(0, 100%float); (1, 100%float)] i c
    /\ TileLibrary.find_best_tile (fun _ _ k => firstn k [(0, 100%float); (1, 100%float)])
         (TileLibrary.mk [Tile.new "a.png" (10, 0, 0)%float 1; Tile.new "b.png" (10, 0, 0)%float 1]
            [(10, 0, 0)%float; (10, 0, 0)%float] "tiles" 1 0%float
            (GaussianMask.mk [1%float] 1%float))
         (0, 0, 0)%float [1; 0] 0.5%float
       = Some (fst c).
Proof.
  apply (find_best_tile_first_min_score
           (fun _ _ k => firstn k [(0, 100%float); (1, 100%float)])
           (TileLibrary.mk [Tile.new "a.png" (10, 0, 0)%float 1; Tile.new "b.png" (10, 0, 0)%float 1]
              [(10, 0, 0)%float; (10, 0, 0)%float] "tiles" 1 0%float
              (GaussianMask.mk [1%float] 1%float))
           (0, 0, 0)%float [1; 0] 0.5%float [(0, 100%float); (1, 100%float)]).
  - reflexivity.
  - discriminate.
  - in_cases ltac:(simpl; lia).
  - in_cases ltac:(vm_compute; reflexivity).
Defined.

(** ** Averages of uniform images *)

Lemma fold_add_const {A} (f : A -> float) (v : float) (l : list A) (a : float) :
  (forall x, In x l -> f x = v) ->
  fold_left (fun acc x => (acc + f x)%float) l a = fsum_const v (List.length l) a.
Proof.
  revert a; induction l as [| x l IH]; intros a H; simpl; [reflexivity |].
  rewrite (H x (or_introl eq_refl)). apply IH. intros y Hy. apply H. now right.
Qed.

(** A channel value [c] summed [k] times, divided by [k] ones summed, gives
    [c] back exactly while [c * k < 2^53]. *)
Lemma uniform_channel_exact (c k : nat) :
  0 < k -> (Z.of_nat k < 2 ^ 53)%Z -> (Z.of_nat (c * k) < 2 ^ 53)%Z ->
  (nat_as_f64 c * 1)%float = nat_as_f64 c
  /\ (fsum_const (nat_as_f64 c) k 0 / fsum_const 1 k 0)%float = nat_as_f64 c.
Proof.
  intros Hk0 Hk Hck. split.
  - apply f64_mul_one_nat. assert (c <= c * k) by nia. lia.
  - change (fsum_const 1 k 0) with (fsum_const (nat_as_f64 1) k (nat_as_f64 0)).
    change (fsum_const (nat_as_f64 c) k 0) with (fsum_const (nat_as_f64 c) k (nat_as_f64 0)).
    rewrite !fsum_const_nat by lia.
    rewrite !Nat.add_0_l, Nat.mul_1_l. apply f64_div_nat; assumption.
Qed.

Section Uniform.
(** [f64::exp]. *)
Variable exp : float -> float.

Lemma weight_at_uniform (size : nat) (sd : float) (x y : nat) :
  (0 <? sd)%float = false -> GaussianMask.weight_at exp size sd x y = 1%float.
Proof. intros H. unfold GaussianMask.weight_at. now rewrite H. Qed.

Lemma uniform_total_weight (size : nat) (sd : float) :
  (0 <? sd)%float = false ->
  GaussianMask.total_weight (GaussianMask.new exp size sd) = fsum_const 1 (size * size) 0%float.
Proof.
  intros Hsd. rewrite (proj2 (mask_new_rows exp size sd)).
  change (fold_left PrimFloat.add (mask_rows exp size sd) 0%float)
    with (fold_left (fun acc w => (acc + (fun w' => w') w)%float) (mask_rows exp size sd) 0%float).
  rewrite (fold_add_const (fun w => w) 1%float).
  - unfold mask_rows. now rewrite rows_length.
  - unfold mask_rows. intros w Hw. apply in_flat_map in Hw as [y [_ Hy]].
    apply in_map_iff in Hy as [x [<- _]]. now apply weight_at_uniform.
Qed.

Lemma uniform_channel_sum (ch : Rgba -> nat) (c size : nat) (sd : float) (px : list Rgba) :
  (0 <? sd)%float = false ->
  (nat_as_f64 c * 1)%float = nat_as_f64 c ->
  Forall (fun p => ch p = c) px ->
  channel_sum exp ch size sd px = fsum_const (nat_as_f64 c) (List.length px) 0%float.
Proof.
  intros Hsd Hc Hpx. unfold channel_sum.
  rewrite (fold_add_const _ (nat_as_f64 c)).
  - unfold enumerate. now rewrite length_combine, length_seq, Nat.min_id.
  - intros [i p] Hin. simpl. rewrite weight_at_uniform by exact Hsd.
    apply in_combine_r in Hin. rewrite Forall_forall in Hpx. now rewrite Hpx.
Qed.

(** C6 (as amended): for a uniform mask ([sigma_divisor <= 0] or NaN, every
    weight [1.0]) of size [size >= 1] and a [size x size] image whose pixels
    all have the RGB colour [(r, g, b)], [avg_rgb_with_mask] returns exactly
    [(r, g, b)], as long as the sums stay exact in [f64]: [size^2 < 2^53] and
    [c * size^2 < 2^53] for each channel value [c]. *)
Theorem avg_rgb_with_mask_uniform_exact (img : Image) (size : nat) (sigma_divisor : float)
    (r g b : nat)
    (Hsd : (0 <? sigma_divisor)%float = false) (Hsize : 1 <= size)
    (Hw : width img = size) (Hh : height img = size) (Hwf : well_formed img)
    (Hk : (Z.of_nat (size * size) < 2 ^ 53)%Z)
    (Hr : (Z.of_nat (r * (size * size)) < 2 ^ 53)%Z)
    (Hg : (Z.of_nat (g * (size * size)) < 2 ^ 53)%Z)
    (Hb : (Z.of_nat (b * (size * size)) < 2 ^ 53)%Z)
    (Hpx : Forall (fun p => ch0 p = r /\ ch1 p = g /\ ch2 p = b) (pixels img)) :
  avg_rgb_with_mask img (GaussianMask.new exp size sigma_divisor)
  = Some (nat_as_f64 r, nat_as_f64 g, nat_as_f64 b).
Proof.
  rewrite (avg_rgb_with_mask_value exp img size sigma_divisor Hw Hh Hwf).
  unfold well_formed in Hwf. rewrite Hw, Hh in Hwf.
  assert (Hk0 : 0 < size * size) by nia.
  rewrite uniform_total_weight by exact Hsd.
  destruct (uniform_channel_exact r _ Hk0 Hk Hr) as [Hr1 Hr2].
  destruct (uniform_channel_exact g _ Hk0 Hk Hg) as [Hg1 Hg2].
  destruct (uniform_channel_exact b _ Hk0 Hk Hb) as [Hb1 Hb2].
  rewrite (uniform_channel_sum ch0 r), (uniform_channel_sum ch1 g), (uniform_channel_sum ch2 b);
    try assumption;
    try (eapply Forall_impl; [| exact Hpx]; simpl; intros p Hp; apply Hp).
  rewrite Hwf, Hr2, Hg2, Hb2. reflexivity.
Qed.

End Uniform.

Lemma avg_rgb_with_mask_uniform_exact_witness :
  avg_rgb_with_mask (mkImage 2 2 (repeat (mkRgba 200 100 7 255) 4)) (GaussianMask.new exp_stub 2 0)
  = Some (nat_as_f64 200, nat_as_f64 100, nat_as_f64 7).
Proof.
  apply (avg_rgb_with_mask_uniform_exact exp_stub _ 2 0 200 100 7); try reflexivity; try lia.
  repeat constructor.
Defined.

(** C6 (counterexample): with [sigma_divisor = 2^1000] the mask of size [1]
    has the single weight [exp(-inf) = 0] (C5), so its total weight is [0]
    and the average of a one-pixel image is [0 / 0], NaN in every channel,
    not the pixel's colour. *)
Lemma avg_rgb_with_mask_uniform_nan :
  (0 <? 0x1p1000)%float = true
  /\ forall exp : float -> float, exp neg_infinity = 0%float ->
     option_map (fun '(r, g, b) => (is_nan r, is_nan g, is_nan b))
       (avg_rgb_with_mask (mkImage 1 1 [mkRgba 10 20 30 255]) (GaussianMask.new exp 1 0x1p1000))
     = Some (true, true, true).
Proof.
  split; [vm_compute; reflexivity |].
  intros ex H. vm_compute in H |- *. rewrite H. vm_compute. reflexivity.
Qed.

(** * Further properties of the code *)

(** ** Error display ([errors.rs]) *)

(** The display of an [AppError] determines it: variant and message. *)
Theorem app_error_display_injective (e1 e2 : AppError.t) :
  AppError.to_string e1 = AppError.to_string e2 -> e1 = e2.
Proof. destruct e1, e2; simpl; intros H; congruence. Qed.

Lemma app_error_display_injective_witness :
  AppError.Config "No valid images found in directory"
  = AppError.Config "No valid images found in directory".
Proof. apply app_error_display_injective. reflexivity. Defined.


(** A path [dir/name] whose last part is a normal name ends in that name. *)
Lemma file_name_child (dir name : string) :
  has_char "/" name = false -> name <> ""%string -> name <> "."%string -> name <> ".."%string ->
  file_name (dir ++ "/" ++ name) = Some name.
Proof.
  intros Hs H1 H2 H3.
  assert (Hb : body_components [name] = [Normal name]).
  { unfold body_components. simpl.
    apply String.eqb_neq in H1, H2, H3. rewrite H1, H2. simpl.
    unfold component_of. now rewrite H3. }
  unfold file_name, path_components, split_slash.
  replace (String.eqb (dir ++ "/" ++ name) "") with false by (destruct dir; reflexivity).
  rewrite split_slash_aux_app by exact Hs.
  destruct (split_slash_aux_cons dir "") as [f [r ->]]. simpl.
  destruct (String.eqb f ""); [| destruct (String.eqb f ".")];
    [rewrite body_components_app, Hb | rewrite body_components_app, Hb
    | change (f :: r ++ [name]) with ((f :: r) ++ [name]); rewrite body_components_app, Hb];
    simpl; rewrite rev_app_distr; reflexivity.
Qed.

Lemma rsplit_dot_aux_nodot (s before cur : string) :
  has_char "." s = false ->
  rsplit_dot_aux s before cur true = Some (before, (cur ++ s)%string).
Proof.
  revert cur; induction s as [| x s IH]; intros cur H; simpl.
  - now rewrite string_app_nil_r.
  - apply has_char_cons in H as [Hx Hs].
    destruct (Ascii.eqb x ".") eqn:E; [apply Ascii.eqb_eq in E; contradiction |].
    rewrite IH by exact Hs. now rewrite string_app_assoc.
Qed.

(** Splitting at the last dot: everything before it, everything after it. *)
Lemma rsplit_dot_aux_last (s1 s2 before cur : string) (seen : bool) :
  has_char "." s2 = false ->
  rsplit_dot_aux (s1 ++ "." ++ s2) before cur seen
  = Some (((if seen then before ++ "." ++ cur else cur) ++ s1)%string, s2).
Proof.
  revert before cur seen; induction s1 as [| x s1 IH]; intros before cur seen H; simpl.
  - rewrite rsplit_dot_aux_nodot by exact H. now rewrite string_app_nil_r.
  - destruct (Ascii.eqb x ".") eqn:E.
    + apply Ascii.eqb_eq in E. subst x. rewrite IH by exact H.
      rewrite string_app_nil_r, string_app_assoc. reflexivity.
    + rewrite IH by exact H. destruct seen; rewrite !string_app_assoc; reflexivity.
Qed.

Lemma extension_child (dir base ext : string) :
  has_char "/" base = false -> has_char "/" ext = false -> has_char "." ext = false ->
  ext <> ""%string ->
  extension (dir ++ "/" ++ base ++ "." ++ ext)
  = if String.eqb base "" then None else Some ext.
Proof.
  intros Hb He1 He2 Hne.
  assert (Hlen : 2 <= String.length (base ++ "." ++ ext)).
  { rewrite !string_length_app. destruct ext; [congruence | simpl; lia]. }
  unfold extension. rewrite file_name_child.
  - destruct (String.eqb (base ++ "." ++ ext) "..") eqn:E.
    + exfalso. apply String.eqb_eq in E.
      destruct base as [| x [| y base]]; simpl in E.
      * injection E as ->. discriminate He2.
      * injection E as -> ->. congruence.
      * injection E as -> -> E. destruct base; discriminate.
    + rewrite rsplit_dot_aux_last by exact He2. simpl. reflexivity.
  - rewrite !has_char_app. now rewrite Hb, He1.
  - intros E. rewrite E in Hlen. simpl in Hlen. lia.
  - intros E. rewrite E in Hlen. simpl in Hlen. lia.
  - destruct base as [| x base]; simpl; [| destruct base].
    + intros E. injection E as E. subst ext. discriminate.
    + intros E. injection E as -> E. destruct ext; [congruence | discriminate].
    + intros E. injection E as -> E. destruct base; discriminate.
Qed.

(** [load_library]'s extension filter on a file [dir/base.ext] ([ext] without
    [/] or [.], non-empty; [base] without [/]): the file is kept iff [ext],
    lowercased, is [jpg], [jpeg] or [png]; so [PHOTO.JPG] is kept. A hidden
    file [dir/.ext] has no extension and is never kept. *)
Theorem supported_extension_file (dir base ext : string)
    (Hb : has_char "/" base = false) (He1 : has_char "/" ext = false)
    (He2 : has_char "." ext = false) (Hne : ext <> ""%string) :
  (base <> ""%string ->
   (supported_extension (dir ++ "/" ++ base ++ "." ++ ext) = true
    <-> In (to_lowercase ext) SUPPORTED_EXTENSIONS))
  /\ supported_extension (dir ++ "/" ++ "" ++ "." ++ ext) = false.
Proof.
  split.
  - intros Hbase. unfold supported_extension.
    rewrite extension_child by assumption.
    apply String.eqb_neq in Hbase. rewrite Hbase.
    rewrite existsb_exists. split.
    + intros [x [Hx Heq]]. apply String.eqb_eq in Heq. now subst.
    + intros H. exists (to_lowercase ext). split; [exact H | apply String.eqb_refl].
  - unfold supported_extension. rewrite extension_child by (try assumption; reflexivity).
    reflexivity.
Qed.

Lemma supported_extension_file_witness :
  supported_extension "/tmp/tiles/IMG_01.JPG" = true.
Proof.
  apply (proj1 (supported_extension_file "/tmp/tiles" "IMG_01" "JPG"
                  eq_refl eq_refl eq_refl ltac:(discriminate)) ltac:(discriminate)).
  simpl. auto.
Defined.

(** ** The cell grid of [generate_mosaic] *)

Lemma step_by_multiple (a ts : nat) :
  0 < ts -> step_by (a * ts) ts = map (fun i => i * ts) (seq 0 a).
Proof.
  intros Hts. unfold step_by.
  replace (a * ts + ts - 1) with (a * ts + (ts - 1)) by lia.
  rewrite Nat.div_add_l by lia. rewrite Nat.div_small by lia.
  now rewrite Nat.add_0_r.
Qed.

Lemma flat_map_map_l {A B C} (g : B -> list C) (h : A -> B) (l : list A) :
  flat_map g (map h l) = flat_map (fun x => g (h x)) l.
Proof. induction l as [| x l IH]; simpl; [reflexivity | now rewrite IH]. Qed.

Lemma tile_coords_rows (a b ts : nat) :
  0 < ts ->
  tile_coords (a * ts) (b * ts) ts
  = flat_map (fun y => map ((fun j i => (i * ts, j * ts)) y) (seq 0 a)) (seq 0 b).
Proof.
  intros Hts. unfold tile_coords. rewrite !step_by_multiple by exact Hts.
  rewrite flat_map_map_l. apply flat_map_ext. intros j. now rewrite map_map.
Qed.

Lemma tile_coords_in (a b ts x y : nat) :
  0 < ts -> In (x, y) (tile_coords (a * ts) (b * ts) ts) ->
  x + ts <= a * ts /\ y + ts <= b * ts /\ x mod ts = 0 /\ y mod ts = 0.
Proof.
  intros Hts H. rewrite tile_coords_rows in H by exact Hts.
  apply in_flat_map in H as [j [Hj H]].
  apply in_map_iff in H as [i [E Hi]]. injection E as <- <-.
  apply in_seq in Hi, Hj.
  rewrite !Nat.Div0.mod_mul. repeat split; nia.
Qed.

(** For padded dimensions [a * ts] by [b * ts], the cells are the [a * b]
    points [(i * ts, j * ts)] in row-major order (cell [j * a + i]); each
    cell lies inside the padded image and starts at multiples of [ts]. *)
Theorem tile_coords_grid (a b ts : nat) (Hts : 0 < ts) :
  List.length (tile_coords (a * ts) (b * ts) ts) = a * b
  /\ (forall i j, i < a -> j < b ->
        nth_error (tile_coords (a * ts) (b * ts) ts) (j * a + i) = Some (i * ts, j * ts))
  /\ (forall x y, In (x, y) (tile_coords (a * ts) (b * ts) ts) ->
        x + ts <= a * ts /\ y + ts <= b * ts /\ x mod ts = 0 /\ y mod ts = 0).
Proof.
  split; [| split].
  - rewrite tile_coords_rows by exact Hts. rewrite rows_length. lia.
  - intros i j Hi Hj. rewrite tile_coords_rows by exact Hts. now rewrite rows_nth.
  - intros x y H. exact (tile_coords_in a b ts x y Hts H).
Qed.

Lemma tile_coords_grid_witness :
  tile_coords (3 * 32) (2 * 32) 32 = [(0, 0); (32, 0); (64, 0); (0, 32); (32, 32); (64, 32)]
  /\ List.length (tile_coords (3 * 32) (2 * 32) 32) = 3 * 2.
Proof.
  split; [vm_compute; reflexivity |].
  exact (proj1 (tile_coords_grid 3 2 32 ltac:(lia))).
Defined.

(** ** Libraries built by [TileLibrary::new] *)

Lemma collect_tiles_fresh load resize_to_fill (size : nat) (mask : GaussianMask.t)
    (paths : list string) (ts : list Tile.t) :
  collect_tiles load resize_to_fill size mask paths = Some ts ->
  Forall (fun t => Tile.image_cache t = None /\ Tile.tile_size t = size) ts.
Proof.
  revert ts; induction paths as [| p paths IH]; intros ts H; simpl in H.
  - injection H as <-. constructor.
  - unfold load_tile in H.
    destruct (negb (supported_extension p)).
    + destruct (collect_tiles _ _ _ _ paths); [| discriminate].
      injection H as <-. now apply IH.
    + destruct (load_resized_image_with_orientation _ _ p size).
      * destruct (avg_rgb_with_mask _ _); [| discriminate].
        destruct (collect_tiles _ _ _ _ paths) eqn:E; [| discriminate].
        injection H as <-. constructor; [split; reflexivity | now apply IH].
      * destruct (collect_tiles _ _ _ _ paths); [| discriminate].
        injection H as <-. now apply IH.
Qed.

Lemma new_returned_shape walk load resize_to_fill exp (dir : string) (size : nat)
    (sigma_divisor : float) (lib : TileLibrary.t)
    (H : new walk load resize_to_fill exp dir size sigma_divisor = Returned lib) :
  TileLibrary.tiles lib <> []
  /\ TileLibrary.color_index lib = map Tile.color (TileLibrary.tiles lib)
  /\ Forall (fun t => Tile.image_cache t = None /\ Tile.tile_size t = size) (TileLibrary.tiles lib)
  /\ TileLibrary.src_dir lib = dir /\ TileLibrary.tile_size lib = size
  /\ TileLibrary.sigma_divisor lib = sigma_divisor
  /\ TileLibrary.mask lib = GaussianMask.new exp size sigma_divisor.
Proof.
  unfold new, load_library in H.
  destruct (collect_tiles _ _ _ _ _) as [tiles |] eqn:E; [| discriminate].
  destruct tiles as [| t tiles]; [discriminate |].
  injection H as <-. simpl.
  repeat split; try reflexivity; [discriminate |].
  exact (collect_tiles_fresh _ _ _ _ _ _ E).
Qed.

(** A library built with [sigma_divisor] matches its own configuration iff
    [sigma_divisor] is not NaN: built with NaN, it never matches and is
    rebuilt on every request. *)
Theorem new_matches_own_config walk load resize_to_fill exp (dir : string) (size : nat)
    (sigma_divisor : float) (lib : TileLibrary.t)
    (H : new walk load resize_to_fill exp dir size sigma_divisor = Returned lib) :
  TileLibrary.matches_config lib dir size sigma_divisor = negb (PrimFloat.is_nan sigma_divisor).
Proof.
  unfold new, load_library in H.
  destruct (collect_tiles _ _ _ _ _) as [tiles |] eqn:E; [| discriminate].
  destruct tiles as [| t tiles]; [discriminate |].
  injection H as <-. unfold TileLibrary.matches_config, path_eq. simpl.
  rewrite (proj2 (components_eqb_true _ _) eq_refl), Nat.eqb_refl.
  unfold PrimFloat.is_nan. now rewrite negb_involutive.
Qed.

Lemma new_matches_own_config_witness :
  match new (fun _ => [Some ("t/a.png", true)]%string)
            (fun _ => Ok (mkImage 1 1 [mkRgba 0 0 0 255]))
            (fun _ w h => mkImage w h (repeat (mkRgba 1 2 3 255) (w * h))) exp_stub "t" 2 PrimFloat.nan with
  | Returned lib => TileLibrary.matches_config lib "t" 2 PrimFloat.nan = false
  | _ => False
  end.
Proof.
  destruct (new (fun _ => [Some ("t/a.png", true)]%string)
                (fun _ => Ok (mkImage 1 1 [mkRgba 0 0 0 255]))
                (fun _ w h => mkImage w h (repeat (mkRgba 1 2 3 255) (w * h))) exp_stub "t" 2 PrimFloat.nan)
    as [lib | e |] eqn:E; [| vm_compute in E; discriminate | vm_compute in E; discriminate].
  exact (new_matches_own_config _ _ _ _ _ _ _ _ E).
Defined.

(** ** The tile image cache *)

(** [Tile::get_image]: after a successful call the tile caches the image, and
    any later call returns that same image and leaves the tile unchanged,
    whatever the loader would now do. A failed call leaves the tile unchanged
    (cache still empty, so the next call loads again) and reports an [Image]
    error naming the tile's path. *)
Theorem get_image_caches load1 resize1 load2 resize2 (t : Tile.t) :
  (forall img t', get_image load1 resize1 t = (Ok img, t') ->
     Tile.image_cache t' = Some img /\ get_image load2 resize2 t' = (Ok img, t'))
  /\ (forall e t', get_image load1 resize1 t = (Err e, t') ->
        t' = t /\ Tile.image_cache t = None
        /\ exists m, e = AppError.Image ("Failed to load tile " ++ Tile.path t ++ ": " ++ m)%string).
Proof.
  unfold get_image. destruct (Tile.image_cache t) as [c |] eqn:Ec.
  - split; intros ? ? H; [| discriminate]. injection H as <- <-.
    split; [exact Ec |]. now rewrite Ec.
  - destruct (load_resized_image_with_orientation _ _ _ _) as [img | e].
    + split; intros ? ? H; [| discriminate]. injection H as <- <-. split; reflexivity.
    + split; intros ? ? H; [discriminate |]. injection H as <- <-.
      split; [reflexivity | split; [reflexivity |]]. eexists. reflexivity.
Qed.

(** ** Masks and averages *)

Lemma avg_fold_none (weights : list float) (l : list (nat * Rgba)) :
  fold_left (avg_step weights) l None = None.
Proof. induction l as [| ip l IH]; simpl; [reflexivity | exact IH]. Qed.

Lemma avg_fold_panics (weights : list float) (px : list Rgba) :
  forall k acc,
  fold_left (avg_step weights) (combine (seq k (List.length px)) px) (Some acc) = None
  <-> 0 < List.length px /\ List.length weights < k + List.length px.
Proof.
  induction px as [| p px IH]; intros k acc; simpl.
  - split; [discriminate | lia].
  - destruct acc as [[r g] b]. simpl.
    destruct (nth_error weights k) as [w |] eqn:E.
    + assert (k < List.length weights) by (apply nth_error_Some; congruence).
      rewrite IH. destruct px; simpl; lia.
    + apply nth_error_None in E. rewrite avg_fold_none. split; [lia | reflexivity].
Qed.

Lemma avg_rgb_with_mask_none_iff (img : Image) (mask : GaussianMask.t) :
  avg_rgb_with_mask img mask = None
  <-> List.length (GaussianMask.weights mask) < List.length (pixels img).
Proof.
  unfold avg_rgb_with_mask, enumerate. cbv zeta.
  pose proof (avg_fold_panics (GaussianMask.weights mask) (pixels img) 0 (0, 0, 0)%float) as H.
  rewrite Nat.add_0_l in H.
  destruct (fold_left _ _ _) as [[[r g] b] |] eqn:E.
  - split; [discriminate |]. intros Hl.
    assert (Hp : 0 < List.length (pixels img)) by lia.
    discriminate (proj2 H (conj Hp Hl)).
  - split; [intros _ | reflexivity]. exact (proj2 (proj1 H eq_refl)).
Qed.

(** [avg_rgb_with_mask] indexes the weights by pixel number: it panics iff
    the image has more pixels than the mask has weights. *)
Theorem avg_rgb_with_mask_panics (img : Image) (mask : GaussianMask.t) :
  avg_rgb_with_mask img mask = None
  <-> List.length (GaussianMask.weights mask) < List.length (pixels img).
Proof. apply avg_rgb_with_mask_none_iff. Qed.

Lemma all_eq_repeat {A} (c : A) (l : list A) :
  (forall x, In x l -> x = c) -> l = repeat c (List.length l).
Proof.
  induction l as [| x l IH]; intros H; simpl; [reflexivity |].
  rewrite (H x (or_introl eq_refl)), <- IH; [reflexivity |].
  intros y Hy. apply H. now right.
Qed.

(** [GaussianMask::new(size, sigma_divisor)] with [sigma_divisor <= 0] (or
    NaN) is the plain average: [size^2] weights all [1.0], whatever the size,
    and [total_weight] is exactly [size^2] while [size^2 < 2^53]. *)
Theorem gaussian_mask_uniform (exp : float -> float) (size : nat) (sigma_divisor : float)
    (Hsd : (0 <? sigma_divisor)%float = false) :
  GaussianMask.weights (GaussianMask.new exp size sigma_divisor) = repeat 1%float (size * size)
  /\ ((Z.of_nat (size * size) < 2 ^ 53)%Z ->
      GaussianMask.total_weight (GaussianMask.new exp size sigma_divisor)
      = nat_as_f64 (size * size)).
Proof.
  split.
  - rewrite (proj1 (mask_new_rows exp size sigma_divisor)).
    rewrite (all_eq_repeat 1%float (mask_rows exp size sigma_divisor)).
    + unfold mask_rows. now rewrite rows_length.
    + unfold mask_rows. intros w Hw. apply in_flat_map in Hw as [y [_ Hy]].
      apply in_map_iff in Hy as [x [<- _]]. now apply weight_at_uniform.
  - intros Hk. rewrite (uniform_total_weight exp) by exact Hsd.
    change (fsum_const 1 (size * size) 0)
      with (fsum_const (nat_as_f64 1) (size * size) (nat_as_f64 0)).
    rewrite fsum_const_nat by lia. f_equal. lia.
Qed.

Lemma gaussian_mask_uniform_witness :
  GaussianMask.total_weight (GaussianMask.new exp_stub 32 0) = 1024%float.
Proof. exact (proj2 (gaussian_mask_uniform exp_stub 32 0 eq_refl) ltac:(lia)). Defined.

(** ** Generation never panics on a library built by [new] *)

Lemma flat_map_length_const {A B} (f : A -> list B) (l : list A) (c : nat) :
  (forall x, In x l -> List.length (f x) = c) -> List.length (flat_map f l) = List.length l * c.
Proof.
  induction l as [| x l IH]; intros H; simpl; [reflexivity |].
  rewrite length_app, (H x (or_introl eq_refl)), IH; [lia |].
  intros y Hy. apply H. now right.
Qed.

Lemma view_to_image_some (img : Image) (x y w h : nat) :
  well_formed img -> x + w <= width img -> y + h <= height img ->
  exists r, view_to_image img x y w h = Some r
            /\ width r = w /\ height r = h /\ well_formed r.
Proof.
  intros Hwf Hx Hy. unfold view_to_image.
  rewrite (proj2 (Nat.leb_le _ _) Hx), (proj2 (Nat.leb_le _ _) Hy). simpl.
  eexists; split; [reflexivity |]. simpl. split; [reflexivity | split; [reflexivity |]].
  unfold well_formed. simpl. rewrite (flat_map_length_const _ _ w).
  - rewrite length_seq. lia.
  - intros j Hj. apply in_seq in Hj. unfold well_formed in Hwf.
    rewrite length_firstn, length_skipn, Hwf. apply Nat.min_l.
    assert (E : (y + j) * width img + width img <= width img * height img).
    { replace ((y + j) * width img + width img) with (S (y + j) * width img) by lia.
      rewrite (Nat.mul_comm (width img)). apply Nat.mul_le_mono_r. lia. }
    lia.
Qed.

Lemma list_set_length {A} (l : list A) (i : nat) (x : A) :
  List.length (list_set l i x) = List.length l.
Proof.
  revert i; induction l as [| y l IH]; intros [| i]; simpl; try reflexivity.
  now rewrite IH.
Qed.

Lemma nth_error_lt_some {A} (l : list A) (i : nat) :
  i < List.length l -> exists x, nth_error l i = Some x.
Proof.
  intros H. apply nth_error_Some in H. destruct (nth_error l i) as [x |]; [now exists x |].
  now destruct H.
Qed.

Lemma score_fold_bound (usage_counts : list nat) (penalty : float) (l : list (nat * float)) :
  forall b s, b < List.length usage_counts ->
  (forall c, In c l -> fst c < List.length usage_counts) ->
  exists b' s', fold_left (TileLibrary.score_step usage_counts penalty) l (Some (b, s))
                = Some (b', s') /\ b' < List.length usage_counts.
Proof.
  induction l as [| c l IH]; intros b s Hb Hl; cbn [fold_left]; [eauto |].
  rewrite score_step_some by (apply Hl; now left).
  destruct (_ <? _)%float; apply IH; auto.
  - apply Hl. now left.
  - intros c' Hc'. apply Hl. now right.
  - intros c' Hc'. apply Hl. now right.
Qed.

Lemma find_best_tile_bound nearest_n (self : TileLibrary.t) (target_color : Color)
    (usage_counts : list nat) (penalty : float) :
  TileLibrary.tiles self <> [] ->
  List.length usage_counts = List.length (TileLibrary.tiles self) ->
  (forall c, In c (nearest_n (TileLibrary.color_index self) target_color
                     (kd_tree_k (List.length (TileLibrary.tiles self))))
             -> fst c < List.length usage_counts) ->
  exists i, TileLibrary.find_best_tile nearest_n self target_color usage_counts penalty = Some i
            /\ i < List.length (TileLibrary.tiles self).
Proof.
  intros Hne Hlen Hn. unfold TileLibrary.find_best_tile.
  rewrite kd_tree_k_nonzero. unfold TileLibrary.best_of_candidates.
  assert (H0 : 0 < List.length usage_counts)
    by (rewrite Hlen; destruct (TileLibrary.tiles self); [congruence | simpl; lia]).
  destruct (score_fold_bound usage_counts penalty _ 0 f64_MAX H0 Hn) as (b & s & E & Hb).
  rewrite E. exists b. split; [reflexivity | lia].
Qed.

Lemma select_tiles_total nearest_n (self : TileLibrary.t) (target : Image) (penalty : float)
    (coords : list (nat * nat)) :
  forall usage_counts,
  TileLibrary.tiles self <> [] ->
  List.length usage_counts = List.length (TileLibrary.tiles self) ->
  (forall tc k c, In c (nearest_n (TileLibrary.color_index self) tc k) ->
                  fst c < List.length (TileLibrary.tiles self)) ->
  TileLibrary.tile_size self * TileLibrary.tile_size self
    <= List.length (GaussianMask.weights (TileLibrary.mask self)) ->
  well_formed target ->
  (forall x y, In (x, y) coords -> x + TileLibrary.tile_size self <= width target
                                   /\ y + TileLibrary.tile_size self <= height target) ->
  exists ms, select_tiles nearest_n self target penalty usage_counts coords = Some ms
             /\ List.length ms = List.length coords
             /\ Forall (fun i => i < List.length (TileLibrary.tiles self)) ms.
Proof.
  induction coords as [| [x y] coords IH]; intros usage Hne Hlen Hn Hm Hwf Hc; simpl.
  - exists []. repeat split; constructor.
  - destruct (Hc x y (or_introl eq_refl)) as [Hx Hy].
    destruct (view_to_image_some target x y _ _ Hwf Hx Hy) as (r & Er & Wr & Hr & WFr).
    rewrite Er.
    destruct (avg_rgb_with_mask (to_rgba8 r) (TileLibrary.mask self)) as [tc |] eqn:Ea.
    2: { apply avg_rgb_with_mask_none_iff in Ea. unfold to_rgba8, well_formed in *.
         rewrite WFr, Wr, Hr in Ea. lia. }
    destruct (find_best_tile_bound nearest_n self tc usage penalty Hne Hlen)
      as (i & Ei & Hi).
    { intros c Hin. rewrite Hlen. exact (Hn _ _ _ Hin). }
    rewrite Ei. destruct (nth_error_lt_some usage i ltac:(lia)) as (u & Eu). rewrite Eu.
    destruct (IH (list_set usage i (S u)) Hne) as (ms & Ems & Hl & Hf); auto.
    { now rewrite list_set_length. }
    { intros x' y' Hin. apply Hc. now right. }
    rewrite Ems. exists (i :: ms). split; [reflexivity |]. split; [simpl; lia |].
    now constructor.
Qed.

Lemma paint_no_panic load resize_to_fill overlay (jobs : list ((nat * nat) * nat)) :
  forall (self : TileLibrary.t) (canvas : Image),
  Forall (fun j => snd j < List.length (TileLibrary.tiles self)) jobs ->
  fst (paint load resize_to_fill overlay self canvas jobs) <> Panicked.
Proof.
  induction jobs as [| [[x y] b] jobs IH]; intros self canvas Hj; simpl; [discriminate |].
  inversion Hj as [| ? ? Hb Hrest]; subst. simpl in Hb.
  unfold lib_get_image. destruct (nth_error_lt_some _ _ Hb) as (t & Et). rewrite Et.
  destruct (get_image load resize_to_fill t) as [[img | e] t']; simpl; [| discriminate].
  apply IH. simpl. now rewrite list_set_length.
Qed.

Lemma pad_dim_multiple (w ts : nat) :
  0 < ts -> (Z.of_nat w + Z.of_nat ts <= 2 ^ 32)%Z ->
  exists a, pad_dim (Z.of_nat w) (Z.of_nat ts) = Some (Z.of_nat (a * ts)) /\ w <= a * ts.
Proof.
  intros Hts Hb. destruct w as [| w].
  - exists 0. split; [| lia]. unfold pad_dim, u32_wrap.
    destruct (Z.eqb_spec (Z.of_nat ts) 0) as [E | _]; [lia |].
    destruct (Z.eq_dec (Z.of_nat ts) (2 ^ 32)) as [E | NE].
    + rewrite E. reflexivity.
    + rewrite (Z.mod_small (0 + Z.of_nat ts)) by lia.
      rewrite (Z.mod_small (0 + Z.of_nat ts - 1)) by lia.
      rewrite (Z.div_small (0 + Z.of_nat ts - 1)) by lia. reflexivity.
  - destruct (pad_dim_no_wrap (Z.of_nat (S w)) (Z.of_nat ts) ltac:(lia) ltac:(lia) Hb)
      as (p & Ep & Mp & Lp & _).
    exists (Z.to_nat p / ts). rewrite Ep. split.
    + f_equal. assert (Hp : p = Z.of_nat (Z.to_nat p)) by lia.
      pose proof (Nat.div_mod (Z.to_nat p) ts ltac:(lia)) as Hd.
      assert (Hm : Z.to_nat p mod ts = 0).
      { apply Nat2Z.inj. rewrite Nat2Z.inj_mod, <- Hp. exact Mp. }
      rewrite Hm, Nat.add_0_r, Nat.mul_comm in Hd. rewrite <- Hd. exact Hp.
    + pose proof (Nat.div_mod (Z.to_nat p) ts ltac:(lia)) as Hd.
      assert (Hm : Z.to_nat p mod ts = 0).
      { apply Nat2Z.inj. rewrite Nat2Z.inj_mod, Z2Nat.id by lia. exact Mp. }
      rewrite Hm, Nat.add_0_r, Nat.mul_comm in Hd. rewrite <- Hd. lia.
Qed.

(** [generate_mosaic] on a library [TileLibrary::new] returned, with a tile
    size above [0], never panics: it returns a data URL or an error. This
    holds when the external code behaves as the crates do: the loaded target
    is a well-formed image whose dimensions plus the tile size fit in [u32];
    [resize_exact] returns an image of the requested size; and the k-d tree
    only yields items of the points it was built from. *)
Theorem generate_mosaic_never_panics walk load resize_to_fill resize_exact overlay encode
    nearest_n exp (dir : string) (size : nat) (sigma_divisor : float) (lib : TileLibrary.t)
    (target_path : string) (config : MosaicConfig)
    (Hnew : new walk load resize_to_fill exp dir size sigma_divisor = Returned lib)
    (Hsize : 0 < size)
    (Hload : forall img, load target_path = Ok img ->
       well_formed img /\ (Z.of_nat (width img) + Z.of_nat size <= 2 ^ 32)%Z
       /\ (Z.of_nat (height img) + Z.of_nat size <= 2 ^ 32)%Z)
    (Hresize : forall img w h, width (resize_exact img w h) = w
       /\ height (resize_exact img w h) = h /\ well_formed (resize_exact img w h))
    (Hnear : forall pts c k n, In n (nearest_n pts c k) -> fst n < List.length pts) :
  fst (generate_mosaic load resize_to_fill resize_exact overlay encode nearest_n
         lib target_path config) <> Panicked.
Proof.
  destruct (new_returned_shape _ _ _ _ _ _ _ _ Hnew) as (Hne & Hci & _ & _ & Hts & _ & Hmask).
  unfold generate_mosaic. destruct (load target_path) as [img | e] eqn:El; [| discriminate].
  destruct (Hload img eq_refl) as (Hwf & Hbw & Hbh).
  rewrite Hts.
  destruct (pad_dim_multiple (width img) size Hsize Hbw) as (a & Ea & La).
  destruct (pad_dim_multiple (height img) size Hsize Hbh) as (b & Eb & Lb).
  rewrite Ea, Eb. cbv zeta. rewrite !Nat2Z.id.
  set (target := match target_source (width img) (height img) (a * size) (b * size) with
                 | OriginalPixels => to_rgba8 img
                 | ResizedTo w h => to_rgba8 (resize_exact img w h)
                 end).
  assert (Ht : well_formed target /\ width target = a * size /\ height target = b * size).
  { unfold target, target_source.
    destruct (Nat.eqb (a * size) (width img) && Nat.eqb (b * size) (height img)) eqn:E.
    - apply andb_true_iff in E as [E1 E2]. apply Nat.eqb_eq in E1, E2.
      unfold to_rgba8. split; [exact Hwf | lia].
    - unfold to_rgba8. destruct (Hresize img (a * size) (b * size)) as (W & H & WF).
      split; [exact WF | lia]. }
  destruct Ht as (Hwt & Wt & Ht).
  destruct (select_tiles_total nearest_n lib target (penalty_factor config)
              (tile_coords (a * size) (b * size) size)
              (repeat 0 (List.length (TileLibrary.tiles lib))) Hne) as (ms & Ems & _ & Hfm).
  - apply repeat_length.
  - intros tc k c Hin. rewrite <- (length_map Tile.color), <- Hci. exact (Hnear _ _ _ _ Hin).
  - rewrite Hmask, Hts, (mask_weights_length exp). lia.
  - exact Hwt.
  - intros x y Hin. rewrite Hts.
    destruct (tile_coords_in a b size x y Hsize Hin) as (Hx & Hy & _). lia.
  - rewrite Ems.
    pose proof (paint_no_panic load resize_to_fill overlay
                  (combine (tile_coords (a * size) (b * size) size) ms) lib
                  (blank_canvas (a * size) (b * size))) as Hp.
    destruct (paint load resize_to_fill overlay lib (blank_canvas (a * size) (b * size))
                (combine (tile_coords (a * size) (b * size) size) ms))
      as [[canvas | e' |] lib'].
    + destruct (encode _); discriminate.
    + discriminate.
    + exfalso. apply Hp; [| reflexivity].
      apply Forall_forall. intros [c m] Hin. apply in_combine_r in Hin. simpl.
      rewrite Forall_forall in Hfm. now apply Hfm.
Qed.

Lemma generate_mosaic_never_panics_witness :
  match new (fun _ => [Some ("t/a.png", true)]%string)
            (fun _ => Ok (mkImage 3 1 (repeat (mkRgba 9 9 9 255) 3)))
            (fun _ w h => mkImage w h (repeat (mkRgba 1 2 3 255) (w * h))) exp_stub "t" 2 0 with
  | Returned lib =>
      fst (generate_mosaic (fun _ => Ok (mkImage 3 1 (repeat (mkRgba 9 9 9 255) 3)))
             (fun _ w h => mkImage w h (repeat (mkRgba 1 2 3 255) (w * h)))
             (fun _ w h => mkImage w h (repeat (mkRgba 4 5 6 255) (w * h)))
             (fun c _ _ _ => c) (fun _ => inl "AAAA"%string)
             (fun pts _ k => map (fun i => (i, 0%float)) (seq 0 (Nat.min k (List.length pts))))
             lib "target.png" (mkMosaicConfig 1)) <> Panicked
  | _ => False
  end.
Proof.
  destruct (new (fun _ => [Some ("t/a.png", true)]%string)
                (fun _ => Ok (mkImage 3 1 (repeat (mkRgba 9 9 9 255) 3)))
                (fun _ w h => mkImage w h (repeat (mkRgba 1 2 3 255) (w * h))) exp_stub "t" 2 0)
    as [lib | e |] eqn:E; [| vm_compute in E; discriminate | vm_compute in E; discriminate].
  apply (generate_mosaic_never_panics _ _ _ _ _ _ _ _ _ _ _ _ _ _ E).
  - lia.
  - intros img H. injection H as <-. vm_compute. split; [reflexivity | split; discriminate].
  - intros img w h. simpl. split; [reflexivity | split; [reflexivity |]].
    unfold well_formed. simpl. apply repeat_length.
  - intros pts c k n Hin. apply in_map_iff in Hin as [i [<- Hi]]. apply in_seq in Hi.
    simpl. lia.
Defined.

(** ** What [generate_mosaic] reports *)

Lemma get_image_err load resize_to_fill (t t' : Tile.t) (e : AppError.t) :
  get_image load resize_to_fill t = (Err e, t') ->
  exists m, e = AppError.Image ("Failed to load tile " ++ Tile.path t ++ ": " ++ m)%string.
Proof.
  unfold get_image. destruct (Tile.image_cache t); [discriminate |].
  destruct (load_resized_image_with_orientation _ _ _ _); [discriminate |].
  intros H. injection H as <- _. eexists. reflexivity.
Qed.

Lemma in_list_set {A} (l : list A) (i : nat) (x y : A) :
  In y (list_set l i x) -> In y l \/ y = x.
Proof.
  revert i; induction l as [| z l IH]; intros [| i] H; simpl in *; auto.
  - destruct H as [<- | H]; auto.
  - destruct H as [<- | H]; auto. destruct (IH i H); auto.
Qed.

Lemma paint_failed load resize_to_fill overlay (jobs : list ((nat * nat) * nat)) :
  forall (self : TileLibrary.t) (canvas : Image) e self',
  paint load resize_to_fill overlay self canvas jobs = (Failed e, self') ->
  exists t m, In t (TileLibrary.tiles self)
              /\ e = AppError.Image ("Failed to load tile " ++ Tile.path t ++ ": " ++ m)%string.
Proof.
  induction jobs as [| [[x y] b] jobs IH]; intros self canvas e self' H; simpl in H;
    [discriminate |].
  unfold lib_get_image in H.
  destruct (nth_error (TileLibrary.tiles self) b) as [t |] eqn:Et; [| discriminate].
  pose proof (get_image_cache_step load resize_to_fill t) as Hs.
  destruct (get_image load resize_to_fill t) as [[img | e0] t'] eqn:Eg; simpl in Hs.
  - apply IH in H as (t2 & m & Hin & ->). simpl in Hin.
    apply in_list_set in Hin as [Hin | ->].
    + now exists t2, m.
    + exists t, m. split; [eapply nth_error_In; eassumption |].
      destruct Hs as (Hp & _). now rewrite Hp.
  - injection H as <- _. destruct (get_image_err _ _ _ _ _ Eg) as (m & ->).
    exists t, m. split; [eapply nth_error_In; eassumption | reflexivity].
Qed.

Lemma generate_mosaic_errors_cases load resize_to_fill resize_exact overlay encode nearest_n
    (self : TileLibrary.t) (target_path : string) (config : MosaicConfig) :
  match fst (generate_mosaic load resize_to_fill resize_exact overlay encode nearest_n
               self target_path config) with
  | Failed e =>
      load target_path = Err e
      \/ (exists t m, In t (TileLibrary.tiles self)
            /\ e = AppError.Image ("Failed to load tile " ++ Tile.path t ++ ": " ++ m)%string)
      \/ (exists m, e = AppError.Image ("Failed to encode image: " ++ m)%string)
  | _ => True
  end.
Proof.
  unfold generate_mosaic. destruct (load target_path) as [img | e] eqn:El; [| now left].
  destruct (pad_dim (Z.of_nat (width img)) _) as [pw |]; [| exact I].
  destruct (pad_dim (Z.of_nat (height img)) _) as [ph |]; [| exact I].
  cbv zeta.
  match goal with
  | |- context [select_tiles ?a ?b ?c ?d ?e ?f] =>
      destruct (select_tiles a b c d e f) as [ms |]; [| exact I]
  end.
  match goal with
  | |- context [paint ?a ?b ?c ?d ?e ?f] =>
      destruct (paint a b c d e f) as [[canvas | e' |] self'] eqn:Ep; simpl
  end.
  - destruct (encode _) as [payload | msg]; [exact I |]. right. right. now exists msg.
  - right. left. exact (paint_failed _ _ _ _ _ _ _ _ Ep).
  - exact I.
Qed.

(** The errors [generate_mosaic] returns: the loader's error for the
    target, a ["Failed to load tile <path>: ..."] error for a tile of the
    library, or a ["Failed to encode image: ..."] error. *)
Theorem generate_mosaic_errors load resize_to_fill resize_exact overlay encode nearest_n
    (self : TileLibrary.t) (target_path : string) (config : MosaicConfig) :
  match fst (generate_mosaic load resize_to_fill resize_exact overlay encode nearest_n
               self target_path config) with
  | Failed e =>
      load target_path = Err e
      \/ (exists t m, In t (TileLibrary.tiles self)
            /\ e = AppError.Image ("Failed to load tile " ++ Tile.path t ++ ": " ++ m)%string)
      \/ (exists m, e = AppError.Image ("Failed to encode image: " ++ m)%string)
  | _ => True
  end.
Proof. apply generate_mosaic_errors_cases. Qed.

Lemma crop_imm_origin (img : Image) (w h : nat) :
  well_formed img ->
  width (crop_imm img 0 0 w h) = Nat.min w (width img)
  /\ height (crop_imm img 0 0 w h) = Nat.min h (height img)
  /\ well_formed (crop_imm img 0 0 w h).
Proof.
  intros Hwf. unfold crop_imm. simpl. rewrite !Nat.sub_0_r.
  split; [reflexivity | split; [reflexivity |]].
  unfold well_formed. simpl. rewrite (flat_map_length_const _ _ (Nat.min w (width img))).
  - rewrite length_seq. lia.
  - intros j Hj. apply in_seq in Hj. unfold well_formed in Hwf.
    rewrite length_firstn, length_skipn, Hwf. apply Nat.min_l.
    assert (E : j * width img + width img <= width img * height img).
    { replace (j * width img + width img) with (S j * width img) by lia.
      rewrite (Nat.mul_comm (width img)). apply Nat.mul_le_mono_r. lia. }
    lia.
Qed.

Lemma paint_dims load resize_to_fill overlay (jobs : list ((nat * nat) * nat))
    (Hov : forall c t x y, width (overlay c t x y) = width c
       /\ height (overlay c t x y) = height c /\ (well_formed c -> well_formed (overlay c t x y))) :
  forall (self : TileLibrary.t) (canvas c : Image) self',
  paint load resize_to_fill overlay self canvas jobs = (Returned c, self') ->
  width c = width canvas /\ height c = height canvas /\ (well_formed canvas -> well_formed c).
Proof.
  induction jobs as [| [[x y] b] jobs IH]; intros self canvas c self' H; simpl in H.
  - injection H as <- _. auto.
  - destruct (lib_get_image load resize_to_fill self b) as [[img | e |] s] eqn:E;
      try discriminate.
    apply IH in H as (W & Hh & WF).
    destruct (Hov canvas (to_rgba8 img) x y) as (W' & H' & WF').
    rewrite W, Hh, W', H'. auto.
Qed.

(** On success [generate_mosaic] returns ["data:image/png;base64,"]
    followed by the payload the encoder produced for a well-formed image of
    exactly the target's dimensions (padding is cropped away). Assumed:
    [overlay] keeps the canvas's size (it draws into it in place) and the
    target's dimensions plus the tile size fit in [u32]. *)
Theorem generate_mosaic_output load resize_to_fill resize_exact overlay encode nearest_n
    (self : TileLibrary.t) (target_path : string) (config : MosaicConfig)
    (Hov : forall c t x y, width (overlay c t x y) = width c
       /\ height (overlay c t x y) = height c /\ (well_formed c -> well_formed (overlay c t x y)))
    (Hb : forall img, load target_path = Ok img ->
       (Z.of_nat (width img) + Z.of_nat (TileLibrary.tile_size self) <= 2 ^ 32)%Z
       /\ (Z.of_nat (height img) + Z.of_nat (TileLibrary.tile_size self) <= 2 ^ 32)%Z) :
  match fst (generate_mosaic load resize_to_fill resize_exact overlay encode nearest_n
               self target_path config) with
  | Returned url =>
      exists img final payload,
        load target_path = Ok img /\ encode final = inl payload
        /\ url = ("data:image/png;base64," ++ payload)%string
        /\ width final = width img /\ height final = height img /\ well_formed final
  | _ => True
  end.
Proof.
  unfold generate_mosaic. destruct (load target_path) as [img | e] eqn:El; [| exact I].
  destruct (Hb img eq_refl) as (Hbw & Hbh).
  destruct (Nat.eq_dec (TileLibrary.tile_size self) 0) as [E0 | Hts].
  { rewrite E0. exact I. }
  destruct (pad_dim_multiple (width img) (TileLibrary.tile_size self) ltac:(lia) Hbw) as (a & Ea & La).
  destruct (pad_dim_multiple (height img) (TileLibrary.tile_size self) ltac:(lia) Hbh) as (b & Eb & Lb).
  rewrite Ea, Eb. cbv zeta. rewrite !Nat2Z.id.
  match goal with
  | |- context [select_tiles ?a ?b ?c ?d ?e ?f] =>
      destruct (select_tiles a b c d e f) as [ms |]; [| exact I]
  end.
  match goal with
  | |- context [paint ?a ?b ?c ?d ?e ?f] =>
      destruct (paint a b c d e f) as [[canvas | e' |] self'] eqn:Ep; simpl; [| exact I | exact I]
  end.
  apply paint_dims in Ep as (W & H & WF); [| exact Hov].
  simpl in W, H. specialize (WF (repeat_length _ _)).
  destruct (crop_imm_origin canvas (width img) (height img) WF) as (Wc & Hc & WFc).
  destruct (encode (crop_imm canvas 0 0 (width img) (height img))) as [payload | msg] eqn:Ee;
    [| exact I].
  exists img, (crop_imm canvas 0 0 (width img) (height img)), payload.
  repeat split; auto; lia.
Qed.

Lemma generate_mosaic_output_witness :
  match fst (generate_mosaic (fun _ => Ok (mkImage 3 1 (repeat (mkRgba 9 9 9 255) 3)))
               (fun _ w h => mkImage w h (repeat (mkRgba 1 2 3 255) (w * h)))
               (fun _ w h => mkImage w h (repeat (mkRgba 4 5 6 255) (w * h)))
               (fun c _ _ _ => c) (fun _ => inl "AAAA"%string)
               (fun _ _ _ => [(0, 0%float)])
               (TileLibrary.mk [Tile.new "t/a.png" (1, 2, 3)%float 2]
                  [(1, 2, 3)%float] "t" 2 0 (GaussianMask.new exp_stub 2 0))
               "target.png" (mkMosaicConfig 1)) with
  | Returned url =>
      exists img final payload,
        (fun _ : string => Ok (mkImage 3 1 (repeat (mkRgba 9 9 9 255) 3))) "target.png"%string
          = Ok img
        /\ (fun _ : Image => inl "AAAA"%string) final = @inl string string payload
        /\ url = ("data:image/png;base64," ++ payload)%string
        /\ width final = width img /\ height final = height img /\ well_formed final
  | _ => True
  end.
Proof.
  apply generate_mosaic_output.
  - intros c t x y. auto.
  - intros img H. injection H as <-. simpl. lia.
Defined.

(** ** Usage counts in the selection loop *)

Lemma map_nth_seq_self (l : list nat) :
  map (fun i => nth i l 0) (seq 0 (List.length l)) = l.
Proof.
  induction l as [| x l IH]; simpl; [reflexivity |]. f_equal.
  rewrite <- seq_shift, map_map. exact IH.
Qed.

Lemma nth_list_set (l : list nat) (b u v i : nat) :
  nth_error l b = Some u ->
  nth i (list_set l b v) 0 = if Nat.eq_dec b i then v else nth i l 0.
Proof.
  revert b i; induction l as [| x l IH]; intros [| b] [| i] H; simpl in *; try discriminate;
    try rewrite (IH b i H);
    repeat match goal with |- context [Nat.eq_dec ?a ?c] => destruct (Nat.eq_dec a c) end;
    try reflexivity; lia.
Qed.

(** [generate_mosaic]'s selection is sequential: the [k]-th cell is matched
    by [find_best_tile] on the masked average colour of its region, with the
    usage counts equal to the initial ones plus, for each tile, how many of
    the cells before [k] picked it; one tile is picked per cell. *)
Theorem select_tiles_usage nearest_n (self : TileLibrary.t) (target : Image) (penalty : float)
    (coords : list (nat * nat)) (usage_counts ms : list nat)
    (H : select_tiles nearest_n self target penalty usage_counts coords = Some ms) :
  List.length ms = List.length coords
  /\ forall k x y, nth_error coords k = Some (x, y) ->
     exists region color,
       view_to_image target x y (TileLibrary.tile_size self) (TileLibrary.tile_size self)
         = Some region
       /\ avg_rgb_with_mask (to_rgba8 region) (TileLibrary.mask self) = Some color
       /\ TileLibrary.find_best_tile nearest_n self color
            (map (fun i => nth i usage_counts 0 + count_occ Nat.eq_dec (firstn k ms) i)
                 (seq 0 (List.length usage_counts))) penalty
          = nth_error ms k.
Proof.
  revert usage_counts ms H.
  induction coords as [| [x y] coords IH]; intros usage ms H; simpl in H.
  - injection H as <-. split; [reflexivity |]. intros [| k] x y Hk; discriminate.
  - destruct (view_to_image target x y _ _) as [r |] eqn:Ev; [| discriminate].
    destruct (avg_rgb_with_mask (to_rgba8 r) _) as [c |] eqn:Ea; [| discriminate].
    destruct (TileLibrary.find_best_tile nearest_n self c usage penalty) as [b |] eqn:Ef;
      [| discriminate].
    destruct (nth_error usage b) as [u |] eqn:Eu; [| discriminate].
    destruct (select_tiles nearest_n self target penalty (list_set usage b (S u)) coords)
      as [ms' |] eqn:Er; [| discriminate].
    injection H as <-. destruct (IH _ _ Er) as [Hl Hk].
    split; [simpl; lia |]. intros [| k] x' y' Hn; simpl in Hn.
    + injection Hn as <- <-. exists r, c. split; [exact Ev | split; [exact Ea |]].
      simpl. rewrite <- Ef. f_equal.
      rewrite <- (map_nth_seq_self usage) at 2. apply map_ext. intros i. lia.
    + destruct (Hk k x' y' Hn) as (r' & c' & Ev' & Ea' & Ef').
      exists r', c'. split; [exact Ev' | split; [exact Ea' |]]. simpl. rewrite <- Ef'.
      apply (f_equal (fun us => TileLibrary.find_best_tile nearest_n self c' us penalty)).
      rewrite list_set_length. apply map_ext_in. intros i Hi.
      rewrite (nth_list_set usage b u (S u) i Eu). simpl.
      assert (Hu : nth b usage 0 = u) by (apply nth_error_nth; exact Eu).
      destruct (Nat.eq_dec b i) as [<- |]; lia.
Qed.

Lemma select_tiles_usage_witness :
  select_tiles (fun _ _ _ => [(0, 0%float); (1, 0%float)])
    (TileLibrary.mk [Tile.new "t/a.png" (1, 2, 3)%float 2; Tile.new "t/b.png" (1, 2, 3)%float 2]
       [(1, 2, 3)%float; (1, 2, 3)%float] "t" 2 0 (GaussianMask.new exp_stub 2 0))
    (mkImage 4 2 (repeat (mkRgba 1 2 3 255) 8)) 1 [0; 0] [(0, 0); (2, 0)]
  = Some [0; 1]
  /\ List.length [0; 1] = List.length [(0, 0); (2, 0)].
Proof.
  assert (E : select_tiles (fun _ _ _ => [(0, 0%float); (1, 0%float)])
    (TileLibrary.mk [Tile.new "t/a.png" (1, 2, 3)%float 2; Tile.new "t/b.png" (1, 2, 3)%float 2]
       [(1, 2, 3)%float; (1, 2, 3)%float] "t" 2 0 (GaussianMask.new exp_stub 2 0))
    (mkImage 4 2 (repeat (mkRgba 1 2 3 255) 8)) 1 [0; 0] [(0, 0); (2, 0)]
    = Some [0; 1]) by (vm_compute; reflexivity).
  exact (conj E (proj1 (select_tiles_usage _ _ _ _ _ _ _ E))).
Defined.

(** ** Errors of the image loader *)

Lemma load_image_err Reader Decoder open into_decoder orientation from_decoder
    apply_orientation (path : string) :
  match ImageLoad.load_image_with_orientation Reader Decoder open into_decoder orientation
          from_decoder apply_orientation path with
  | Err e =>
      exists m, e = AppError.Image ("Failed to open image: " ++ m)%string
                \/ e = AppError.Image ("Failed to decode image: " ++ m)%string
                \/ e = AppError.Image ("Failed to load image: " ++ m)%string
  | Ok _ => True
  end.
Proof.
  unfold ImageLoad.load_image_with_orientation.
  destruct (open path) as [reader | m]; [| exists m; now left].
  destruct (into_decoder reader) as [decoder | m]; [| exists m; right; now left].
  destruct (from_decoder decoder) as [img | m]; [exact I | exists m; right; now right].
Qed.

(** With the crate's loader, every error [generate_mosaic] returns is an
    [AppError::Image]: never [Io] nor [Config]. *)
Theorem generate_mosaic_image_errors Reader Decoder open into_decoder orientation
    from_decoder apply_orientation resize_to_fill resize_exact overlay encode nearest_n
    (self : TileLibrary.t) (target_path : string) (config : MosaicConfig) :
  match fst (generate_mosaic
               (ImageLoad.load_image_with_orientation Reader Decoder open into_decoder
                  orientation from_decoder apply_orientation)
               resize_to_fill resize_exact overlay encode nearest_n
               self target_path config) with
  | Failed e => exists m, e = AppError.Image m
  | _ => True
  end.
Proof.
  pose proof (generate_mosaic_errors_cases
                (ImageLoad.load_image_with_orientation Reader Decoder open into_decoder
                   orientation from_decoder apply_orientation)
                resize_to_fill resize_exact overlay encode nearest_n
                self target_path config) as H.
  destruct (fst (generate_mosaic _ _ _ _ _ _ _ _ _)) as [s | e |]; [exact I | | exact I].
  destruct H as [H | [(t & m & _ & ->) | (m & ->)]]; [| eexists; reflexivity | eexists; reflexivity].
  pose proof (load_image_err Reader Decoder open into_decoder orientation from_decoder
                apply_orientation target_path) as He.
  rewrite H in He. destruct He as (m & [-> | [-> | ->]]); eexists; reflexivity.
Qed.

(** ** What [find_best_tile] can return *)

Lemma score_fold_from_none (usage_counts : list nat) (penalty : float)
    (l : list (nat * float)) :
  fold_left (TileLibrary.score_step usage_counts penalty) l None = None.
Proof. induction l as [| c l IH]; simpl; [reflexivity | exact IH]. Qed.

Lemma score_fold_none (usage_counts : list nat) (penalty : float) (l : list (nat * float)) :
  forall b s,
  fold_left (TileLibrary.score_step usage_counts penalty) l (Some (b, s)) = None
  <-> exists c, In c l /\ List.length usage_counts <= fst c.
Proof.
  induction l as [| c l IH]; intros b s; cbn [fold_left].
  - split; [discriminate | intros (c & [] & _)].
  - destruct (Nat.lt_ge_cases (fst c) (List.length usage_counts)) as [Hc | Hc].
    + rewrite score_step_some by exact Hc.
      destruct (_ <? _)%float; rewrite IH; split.
      1, 3: intros (c' & Hin & Hl); exists c'; split; [now right | exact Hl].
      1, 2: intros (c' & [<- | Hin] & Hl); [lia | now exists c'].
    + unfold TileLibrary.score_step at 2.
      rewrite (proj2 (nth_error_None usage_counts (fst c)) Hc), score_fold_from_none.
      split; [intros _; exists c; split; [now left | exact Hc] | reflexivity].
Qed.

Lemma score_fold_from (usage_counts : list nat) (penalty : float) (l : list (nat * float)) :
  forall b s b' s',
  fold_left (TileLibrary.score_step usage_counts penalty) l (Some (b, s)) = Some (b', s') ->
  b' = b \/ exists d, In (b', d) l.
Proof.
  induction l as [| c l IH]; intros b s b' s' H; cbn [fold_left] in H.
  - injection H as <- _. now left.
  - unfold TileLibrary.score_step at 2 in H.
    destruct (nth_error usage_counts (fst c)) as [u |];
      [| rewrite score_fold_from_none in H; discriminate].
    destruct (_ <? _)%float; apply IH in H as [-> | (d & Hd)].
    + right. exists (snd c). left. now destruct c.
    + right. exists d. now right.
    + now left.
    + right. exists d. now right.
Qed.

(** [find_best_tile] panics iff one of the candidates the index yields has
    an item beyond the usage table ([usage_counts[idx]]); otherwise it
    returns tile [0] (its initial [best_idx]) or the item of one of the
    candidates. *)
Theorem find_best_tile_result nearest_n (self : TileLibrary.t) (target_color : Color)
    (usage_counts : list nat) (penalty : float) :
  let candidates := nearest_n (TileLibrary.color_index self) target_color
                      (kd_tree_k (List.length (TileLibrary.tiles self))) in
  (TileLibrary.find_best_tile nearest_n self target_color usage_counts penalty = None
   <-> exists c, In c candidates /\ List.length usage_counts <= fst c)
  /\ (forall i, TileLibrary.find_best_tile nearest_n self target_color usage_counts penalty
                = Some i -> i = 0 \/ exists d, In (i, d) candidates).
Proof.
  cbv zeta. unfold TileLibrary.find_best_tile. rewrite kd_tree_k_nonzero.
  unfold TileLibrary.best_of_candidates. split.
  - rewrite <- (score_fold_none usage_counts penalty _ 0 f64_MAX).
    destruct (fold_left _ _ _) as [[b s] |]; simpl; split; congruence.
  - intros i H.
    destruct (fold_left _ _ (Some (0, f64_MAX))) as [[b s] |] eqn:E; [| discriminate].
    injection H as <-. exact (score_fold_from _ _ _ _ _ _ _ E).
Qed.
